(** * cudipy.segment.tissue: the HMRF tissue classifier driver

    A shallow embedding of [TissueClassifierHMRF] (src/cudipy/segment/tissue.py)
    and the properties of its [classify] method.

    - Scalars are IEEE binary64 numbers ([PrimFloat.float]), as Python's
      [float] and numpy's [float64] are; [image] is an array of them,
      [nclasses] and [max_iter] are Python integers ([range] takes no other),
      [beta] and [tolerance] are floats.
    - An n-dimensional array is its shape and its data in C order.
    - The method runs in a state-and-exception monad over a [world]: a store
      of float arrays (the caller's [image] is a reference into it), the
      fields of [self], the standard output and a log.  An exception leaves
      the world as it was when it was raised, as in Python.
    - The observation model, the ICM engine and the noise generator
      (cudipy.segment.mrf, cudipy.sims.voxel) are not part of the file under
      study: they are a record of functions, [collaborators], that the driver
      is parameterised by.  They may raise; they do not change the arrays
      they are given.
    - The log is not in the source: it records every call to a collaborator,
      with its arguments and outcome, and every entry into the loop body, so
      that properties of what the driver computes with, and how often, can
      be stated. *)

From Stdlib Require Import ZArith Floats Sorting.Sorted.
From stdpp Require Import base list gmap strings pretty.

Set Warnings "-inexact-float".

(* ================================================================= *)
(** ** Python values *)

(** Exceptions the driver itself can raise, and [Raised] for whatever a
    collaborator raises. *)
Inductive exn : Type :=
| ValueError
| IndexError
| UnboundLocalError
| Raised (msg : string).

Inductive result (A : Type) : Type :=
| Ok (a : A)
| Err (e : exn).
Arguments Ok {A} a.
Arguments Err {A} e.

Definition result_bind {A B} (r : result A) (k : A -> result B) : result B :=
  match r with
  | Ok a => k a
  | Err e => Err e
  end.

Declare Scope py_scope.
Delimit Scope py_scope with py.
Notation "'let+' x ':=' r 'in' k" := (result_bind r (fun x => k))
  (at level 10, x pattern, r at level 100, k at level 200) : py_scope.

(** [ndarray]: shape and row-major data. *)
Record ndarray (A : Type) : Type := NdArray {
  shape : list nat;
  data : list A
}.
Arguments NdArray {A} shape data.
Arguments shape {A} _.
Arguments data {A} _.

(** One-dimensional parameter arrays ([mu], [sigma], [sigmasq]). *)
Abbreviation vec := (list float).

Abbreviation loc := positive.

(* ================================================================= *)
(** ** The numeric backend ([xp]: numpy or cupy) *)

Module Xp.

Open Scope float_scope.

(** [maximum.reduce] and [minimum.reduce]: a NaN operand wins. *)
Definition maximum (a b : float) : float :=
  if (b <=? a) || is_nan a then a else b.

Definition minimum (a b : float) : float :=
  if (a <=? b) || is_nan a then a else b.

(** [a.max()], [np.amax(a)]: a zero-size reduction raises [ValueError]. *)
Definition amax (l : list float) : result float :=
  match l with
  | [] => Err ValueError
  | x :: r => Ok (fold_left maximum r x)
  end.

Definition amin (l : list float) : result float :=
  match l with
  | [] => Err ValueError
  | x :: r => Ok (fold_left minimum r x)
  end.

(** The order [argsort] sorts by: [<] on numbers, NaN after every number. *)
Definition sort_lt (a b : float) : bool :=
  (a <? b) || (is_nan b && negb (is_nan a)).

Definition sort_le (a b : float) : bool := negb (sort_lt b a).

(** [xp.argsort]: indices that sort the array.  The stable insertion sort is
    one of the orders the backend may return on ties. *)
Fixpoint insert_by (x : nat * float) (l : list (nat * float))
  : list (nat * float) :=
  match l with
  | [] => [x]
  | y :: r => if sort_lt y.2 x.2 then y :: insert_by x r else x :: y :: r
  end.

Definition indexed (a : vec) : list (nat * float) :=
  imap (fun i x => (i, x)) a.

Definition sorted_pairs (a : vec) : list (nat * float) :=
  foldr insert_by [] (indexed a).

Definition argsort (a : vec) : list nat := (sorted_pairs a).*1.

(** The order of the indexed entries. *)
Definition pair_le (x y : nat * float) : Prop := sort_le x.2 y.2 = true.

(** [a[p]] for an index array [p]: an index out of bounds raises
    [IndexError]. *)
Fixpoint take_indices (a : vec) (p : list nat) : result vec :=
  match p with
  | [] => Ok []
  | i :: q =>
      match a !! i with
      | None => Err IndexError
      | Some x =>
          match take_indices a q with
          | Ok r => Ok (x :: r)
          | Err e => Err e
          end
      end
  end.

(** [sigma ** 2]. *)
Definition square (a : vec) : vec := (fun x => x * x) <$> a.

(** [a - s] and [a / s] for a scalar [s]. *)
Definition sub_scalar (a : ndarray float) (s : float) : ndarray float :=
  NdArray (shape a) ((fun x => x - s) <$> data a).

Definition div_scalar (a : ndarray float) (s : float) : ndarray float :=
  NdArray (shape a) ((fun x => x / s) <$> data a).

(** [xp.zeros_like(a) + c]. *)
Definition zeros_like_plus (a : ndarray float) (c : float) : ndarray float :=
  NdArray (shape a) ((fun _ => 0 + c) <$> data a).

(** [xp.where(a == 0, b, a)] for arrays of one shape; unequal shapes are
    outside the model (no broadcasting) and raise. *)
Definition where_zero (a b : ndarray float) : result (ndarray float) :=
  if decide (shape a = shape b)
  then Ok (NdArray (shape a)
             (zip_with (fun x n => if x =? 0 then n else x) (data a) (data b)))
  else Err ValueError.

(** [e[e > -xp.inf]]: the entries that compare greater than minus infinity. *)
Definition above_neg_inf (e : ndarray float) : list float :=
  filter (fun x => (neg_infinity <? x) = true) (data e).

(** [a[..., 1:]]: drops index 0 of the last axis; a zero-dimensional array
    has no axis to slice. *)
Definition drop_first_channel (a : ndarray float) : result (ndarray float) :=
  match reverse (shape a) with
  | [] => Err IndexError
  | k :: s =>
      Ok (NdArray (reverse s ++ [Nat.pred k])
            ((filter (fun jx => (jx.1 mod k)%nat <> 0%nat)
                (imap (fun j x => (j, x)) (data a))).*2))
  end.

(** Number of entries along the last axis. *)
Definition channels {A} (a : ndarray A) : nat :=
  match reverse (shape a) with
  | [] => 0
  | k :: _ => k
  end.

End Xp.

(** [float(x)] of a [float64] scalar: the same number. *)
Definition float_of (x : float) : float := x.

(** Python's [l[start:stop]] with integer bounds: a negative bound counts
    from the end, and both are clipped to the list. *)
Definition py_index (n : Z) (i : Z) : nat :=
  Z.to_nat (if (i <? 0)%Z then Z.max 0 (i + n) else Z.min i n).

Definition py_slice {A} (l : list A) (start stop : Z) : list A :=
  let n := Z.of_nat (length l) in
  let a := py_index n start in
  let b := py_index n stop in
  take (b - a) (drop a l).

(* ================================================================= *)
(** ** The collaborators *)

(** [ConstantObservationModel], [IteratedConditionalModes] and [add_noise]
    are imported from modules outside the file under study.  Each may raise;
    none changes its arguments.  [xp_sum] is the backend's [sum] reduction,
    whose order of additions (and so its rounding) is the backend's own. *)
Record collaborators : Type := Collaborators {
  initialize_param_uniform : ndarray float -> Z -> result (vec * vec);
  negloglikelihood : ndarray float -> vec -> vec -> Z -> result (ndarray float);
  seg_stats : ndarray float -> ndarray Z -> Z -> result (vec * vec);
  prob_image :
    ndarray float -> Z -> vec -> vec -> ndarray float -> result (ndarray float);
  update_param :
    ndarray float -> ndarray float -> vec -> Z -> result (vec * vec);
  initialize_maximum_likelihood : ndarray float -> result (ndarray Z);
  prob_neighborhood : ndarray Z -> float -> Z -> result (ndarray float);
  icm_ising :
    ndarray float -> float -> ndarray Z -> result (ndarray Z * ndarray float);
  add_noise : ndarray float -> Z -> Z -> string -> result (ndarray float);
  xp_sum : list float -> float
}.

(** What the log records: each call to a collaborator with its arguments and
    its outcome, and each entry into the body of the loop. *)
Inductive event : Type :=
| EvInitParam (image : ndarray float) (K : Z) (r : result (vec * vec))
| EvNegLogL (image : ndarray float) (mu sigmasq : vec) (K : Z)
    (r : result (ndarray float))
| EvInitML (nll : ndarray float) (r : result (ndarray Z))
| EvSegStats (image : ndarray float) (seg : ndarray Z) (K : Z)
    (r : result (vec * vec))
| EvAddNoise (signal : ndarray float) (snr S0 : Z) (noise_type : string)
    (r : result (ndarray float))
| EvIteration (i : nat)
| EvProbNeighborhood (seg : ndarray Z) (beta : float) (K : Z)
    (r : result (ndarray float))
| EvProbImage (image : ndarray float) (K : Z) (mu sigmasq : vec)
    (PLN : ndarray float) (r : result (ndarray float))
| EvUpdateParam (image PVE : ndarray float) (mu : vec) (K : Z)
    (r : result (vec * vec))
| EvIcmIsing (negll : ndarray float) (beta : float) (seg : ndarray Z)
    (r : result (ndarray Z * ndarray float)).

(* ================================================================= *)
(** ** The object and the world *)

(** The fields [__init__] sets. *)
Record TissueClassifierHMRF : Type := Self {
  save_history : bool;
  segmentations : list (ndarray Z);
  pves : list (ndarray float);
  energies : list (ndarray float);
  energies_sum : list float;
  verbose : bool
}.

(** [TissueClassifierHMRF(save_history, verbose)]. *)
Definition init (save_history verbose : bool) : TissueClassifierHMRF :=
  {| save_history := save_history;
     segmentations := [];
     pves := [];
     energies := [];
     energies_sum := [];
     verbose := verbose |}.

Record world : Type := World {
  heap : gmap loc (ndarray float);
  self : TissueClassifierHMRF;
  stdout : list string;
  calls : list event
}.

(** Computations: a result and the world after them. *)
Definition M (A : Type) : Type := world -> result A * world.

Definition ret {A} (a : A) : M A := fun w => (Ok a, w).

Definition raise {A} (e : exn) : M A := fun w => (Err e, w).

Definition bind {A B} (m : M A) (k : A -> M B) : M B :=
  fun w =>
    match m w with
    | (Ok a, w') => k a w'
    | (Err e, w') => (Err e, w')
    end.

Notation "'let*' x ':=' m 'in' k" := (bind m (fun x => k))
  (at level 10, x pattern, m at level 100, k at level 200) : py_scope.
Open Scope py_scope.

Definition lift {A} (r : result A) : M A := fun w => (r, w).

Definition get_self : M TissueClassifierHMRF := fun w => (Ok (self w), w).

Definition set_self (s : TissueClassifierHMRF) : M unit :=
  fun w => (Ok tt, World (heap w) s (stdout w) (calls w)).

Definition print (line : string) : M unit :=
  fun w => (Ok tt, World (heap w) (self w) (stdout w ++ [line]) (calls w)).

Definition record (e : event) : M unit :=
  fun w => (Ok tt, World (heap w) (self w) (stdout w) (calls w ++ [e])).

(** Reading through a reference; the store holds every array a reference
    names, so the [None] case does not arise from Python. *)
Definition read (l : loc) : M (ndarray float) :=
  fun w =>
    match heap w !! l with
    | Some a => (Ok a, w)
    | None => (Err (Raised "unbound reference"), w)
    end.

(** A new array object. *)
Definition alloc (a : ndarray float) : M loc :=
  fun w =>
    let l := fresh (dom (heap w)) in
    (Ok l, World (<[l := a]> (heap w)) (self w) (stdout w) (calls w)).

(** An in-place update of the array a reference names. *)
Definition write (l : loc) (a : ndarray float) : M unit :=
  fun w => (Ok tt, World (<[l := a]> (heap w)) (self w) (stdout w) (calls w)).

(** A call to a collaborator: logged with its outcome, which is then
    returned or raised. *)
Definition call {A} (ev : result A -> event) (r : result A) : M A :=
  let* _ := record (ev r) in lift r.

(* ================================================================= *)
(** ** [TissueClassifierHMRF.classify] *)

(** [final_segmentation] is first [xp.empty_like(image)], an array of the
    image's shape with unspecified contents, then the label array of the
    last ICM sweep. *)
Inductive segmentation_var : Type :=
| EmptyLike (shape : list nat)
| Labels (seg : ndarray Z).

(** The variables the loop reads and assigns; [PVE] is unbound before the
    first iteration. *)
Record loop_state : Type := LoopState {
  seg_init : ndarray Z;
  mu : vec;
  sigmasq : vec;
  final_segmentation : segmentation_var;
  PVE : option (ndarray float);
  energy_sum : list float
}.

(** Line 93. *)
Definition allow_break (max_iter : option Z) (tolerance : option float)
  : bool :=
  negb (bool_decide (max_iter <> None) && bool_decide (tolerance = None)).

Section Driver.

Variable C : collaborators.

Open Scope float_scope.

(** Lines 69-72: the working volume.  The difference is a new array, which
    the division then updates in place. *)
Definition normalize (image : loc) : M loc :=
  let* a := read image in
  let* hi := lift (Xp.amax (data a)) in
  if 1 <? hi then
    let* lo := lift (Xp.amin (data a)) in
    let* image := alloc (Xp.sub_scalar a lo) in
    let* a := read image in
    let* hi := lift (Xp.amax (data a)) in
    let* _ := write image (Xp.div_scalar a hi) in
    ret image
  else ret image.

(** Lines 130-137: the stopping test at iteration [i]. *)
Definition converged (tolerance : float) (energy_sum : list float) (i : nat)
  : result bool :=
  let+ hi := Xp.amax energy_sum in
  let+ lo := Xp.amin energy_sum in
  let tol := tolerance * (hi - lo) in
  let window :=
    py_slice energy_sum (Z.of_nat (length energy_sum) - 5) (Z.of_nat i) in
  let+ whi := Xp.amax window in
  let+ wlo := Xp.amin window in
  let test_dist := abs (whi - wlo) in
  Ok (test_dist <? tol).

(** [energy[energy > -xp.inf].sum()], lines 120 and 126. *)
Definition energy_total (energy : ndarray float) : float :=
  xp_sum C (Xp.above_neg_inf energy).

(** Lines 122-126: the four [append]s. *)
Definition record_history (s : TissueClassifierHMRF)
    (final_segmentation : ndarray Z) (PVE energy : ndarray float)
  : TissueClassifierHMRF :=
  {| save_history := save_history s;
     segmentations := segmentations s ++ [final_segmentation];
     pves := pves s ++ [PVE];
     energies := energies s ++ [energy];
     energies_sum := energies_sum s ++ [energy_total energy];
     verbose := verbose s |}.

Definition save (final_segmentation : ndarray Z) (PVE energy : ndarray float)
  : M unit :=
  let* s := get_self in
  if save_history s
  then set_self (record_history s final_segmentation PVE energy)
  else ret tt.

(** Line 104: the line a pass prints. *)
Definition progress_line (i : nat) : string := ">> Iteration: " +:+ pretty i.

(** Lines 103-142: one pass through the body of the loop.  The boolean says
    whether the pass ended in [break]. *)
Definition body (image_gauss : ndarray float) (nclasses : Z) (beta : float)
    (allow_break : bool) (tolerance : float) (i : nat) (st : loop_state)
  : M (loop_state * bool) :=
  let* _ := record (EvIteration i) in
  let* s := get_self in
  let* _ := (if verbose s then print (progress_line i) else ret tt) in
  let* PLN := call (EvProbNeighborhood (seg_init st) beta nclasses)
                (prob_neighborhood C (seg_init st) beta nclasses) in
  let* PVE := call (EvProbImage image_gauss nclasses (mu st) (sigmasq st) PLN)
                (prob_image C image_gauss nclasses (mu st) (sigmasq st) PLN) in
  let* (mu_upd, sigmasq_upd) :=
    call (EvUpdateParam image_gauss PVE (mu st) nclasses)
      (update_param C image_gauss PVE (mu st) nclasses) in
  let ind := Xp.argsort mu_upd in
  let* mu_upd := lift (Xp.take_indices mu_upd ind) in
  let* sigmasq_upd := lift (Xp.take_indices sigmasq_upd ind) in
  let* negll := call (EvNegLogL image_gauss mu_upd sigmasq_upd nclasses)
                  (negloglikelihood C image_gauss mu_upd sigmasq_upd nclasses) in
  let* (final_segmentation, energy) :=
    call (EvIcmIsing negll beta (seg_init st))
      (icm_ising C negll beta (seg_init st)) in
  let energy_sum :=
    if allow_break
    then energy_sum st ++ [float_of (energy_total energy)]
    else energy_sum st in
  let* _ := save final_segmentation PVE energy in
  let* stop :=
    (if allow_break && (bool_decide (i mod 10 = 0) && bool_decide (i <> 0))%nat
     then lift (converged tolerance energy_sum i)
     else ret false) in
  if stop then
    ret ({| seg_init := seg_init st;
            mu := mu st;
            sigmasq := sigmasq st;
            final_segmentation := Labels final_segmentation;
            PVE := Some PVE;
            energy_sum := energy_sum |}, true)
  else
    ret ({| seg_init := final_segmentation;
            mu := mu_upd;
            sigmasq := sigmasq_upd;
            final_segmentation := Labels final_segmentation;
            PVE := Some PVE;
            energy_sum := energy_sum |}, false).

(** Line 101: [for i in range(max_iter)], over the indices still to run. *)
Fixpoint for_loop (image_gauss : ndarray float) (nclasses : Z) (beta : float)
    (allow_break : bool) (tolerance : float) (range : list nat)
    (st : loop_state) : M loop_state :=
  match range with
  | [] => ret st
  | i :: rest =>
      let* (st', stop) :=
        body image_gauss nclasses beta allow_break tolerance i st in
      if stop : bool then ret st'
      else for_loop image_gauss nclasses beta allow_break tolerance rest st'
  end.

(** Lines 62-99: everything before the loop.  Returns the working volume,
    the noise-substituted volume, the class count, the initial segmentation
    and the state the loop starts in. *)
Definition prepare (image : loc) (nclasses : Z)
  : M (ndarray float * ndarray float * Z * ndarray Z * loop_state) :=
  let nclasses := (nclasses + 1)%Z in
  let energy_sum := [1e-05] in
  let* image := normalize image in
  let* img := read image in
  let* (mu, sigma) := call (EvInitParam img nclasses)
                         (initialize_param_uniform C img nclasses) in
  let p := Xp.argsort mu in
  let* mu := lift (Xp.take_indices mu p) in
  let* sigma := lift (Xp.take_indices sigma p) in
  let sigmasq := Xp.square sigma in
  let* neglogl := call (EvNegLogL img mu sigmasq nclasses)
                    (negloglikelihood C img mu sigmasq nclasses) in
  let* seg_init := call (EvInitML neglogl)
                     (initialize_maximum_likelihood C neglogl) in
  let* (mu, sigma) := call (EvSegStats img seg_init nclasses)
                         (seg_stats C img seg_init nclasses) in
  let sigmasq := Xp.square sigma in
  let zero := Xp.zeros_like_plus img 0.001 in
  let* zero_noise := call (EvAddNoise zero 10000 1 "gaussian")
                       (add_noise C zero 10000 1 "gaussian") in
  let* image_gauss := lift (Xp.where_zero img zero_noise) in
  let final_segmentation := EmptyLike (shape img) in
  let initial_segmentation := seg_init in
  ret (img, image_gauss, nclasses, initial_segmentation,
       {| seg_init := seg_init;
          mu := mu;
          sigmasq := sigmasq;
          final_segmentation := final_segmentation;
          PVE := None;
          energy_sum := energy_sum |}).

(** The loop of [classify] with its parameters defaulted (lines 93-101). *)
Definition iterate (image_gauss : ndarray float) (nclasses : Z) (beta : float)
    (tolerance : option float) (max_iter : option Z) (st : loop_state)
  : M loop_state :=
  let allow_break := allow_break max_iter tolerance in
  let max_iter := default 100%Z max_iter in
  let tolerance := default 1e-05 tolerance in
  for_loop image_gauss nclasses beta allow_break tolerance
    (seq 0 (Z.to_nat max_iter)) st.

(** Lines 62-142: [classify] up to the end of its loop.  Returns the initial
    segmentation and the variables as the loop left them. *)
Definition classify_loop (image : loc) (nclasses : Z) (beta : float)
    (tolerance : option float) (max_iter : option Z)
  : M (ndarray Z * loop_state) :=
  let* (_, image_gauss, nclasses, initial_segmentation, st) :=
    prepare image nclasses in
  let* st := iterate image_gauss nclasses beta tolerance max_iter st in
  ret (initial_segmentation, st).

(** Lines 144-146: [PVE] is unbound when the loop ran no pass. *)
Definition classify (image : loc) (nclasses : Z) (beta : float)
    (tolerance : option float) (max_iter : option Z)
  : M (ndarray Z * segmentation_var * ndarray float) :=
  let* (initial_segmentation, st) :=
    classify_loop image nclasses beta tolerance max_iter in
  let* PVE :=
    match PVE st with
    | None => raise UnboundLocalError
    | Some PVE => lift (Xp.drop_first_channel PVE)
    end in
  ret (initial_segmentation, final_segmentation st, PVE).

End Driver.

(* ================================================================= *)
(** ** Reading the log *)

(** Indices of the passes through the loop body, in order. *)
Definition iterations (log : list event) : list nat :=
  omap (fun e => match e with EvIteration i => Some i | _ => None end) log.

(** The volume handed to each likelihood, statistics or posterior
    computation. *)
Definition volumes (log : list event) : list (ndarray float) :=
  omap (fun e =>
          match e with
          | EvInitParam image _ _ => Some image
          | EvNegLogL image _ _ _ _ => Some image
          | EvSegStats image _ _ _ => Some image
          | EvProbImage image _ _ _ _ _ => Some image
          | EvUpdateParam image _ _ _ _ => Some image
          | _ => None
          end) log.

(** [(mu, sigmasq)] at each likelihood computation. *)
Definition likelihood_params (log : list event) : list (vec * vec) :=
  omap (fun e =>
          match e with
          | EvNegLogL _ mu sigmasq _ _ => Some (mu, sigmasq)
          | _ => None
          end) log.

(** [(mu, sigmasq)] at each posterior computation. *)
Definition posterior_params (log : list event) : list (vec * vec) :=
  omap (fun e =>
          match e with
          | EvProbImage _ _ mu sigmasq _ _ => Some (mu, sigmasq)
          | _ => None
          end) log.

(** The class parameters each estimation returned: [(mu, sigma)] from
    [initialize_param_uniform] and from [seg_stats], [(mu, sigmasq)] from
    [update_param]. *)
Definition initial_estimates (log : list event) : list (vec * vec) :=
  omap (fun e =>
          match e with
          | EvInitParam _ _ (Ok r) => Some r
          | _ => None
          end) log.

Definition segmentation_estimates (log : list event) : list (vec * vec) :=
  omap (fun e =>
          match e with
          | EvSegStats _ _ _ (Ok r) => Some r
          | _ => None
          end) log.

Definition updates (log : list event) : list (vec * vec) :=
  omap (fun e =>
          match e with
          | EvUpdateParam _ _ _ _ (Ok r) => Some r
          | _ => None
          end) log.

(** The posterior maps [prob_image] returned. *)
Definition posteriors (log : list event) : list (ndarray float) :=
  omap (fun e =>
          match e with
          | EvProbImage _ _ _ _ _ (Ok r) => Some r
          | _ => None
          end) log.

(** The maximum-likelihood segmentations [initialize_maximum_likelihood]
    returned. *)
Definition ml_segmentations (log : list event) : list (ndarray Z) :=
  omap (fun e =>
          match e with
          | EvInitML _ (Ok r) => Some r
          | _ => None
          end) log.

(** The [(segmentation, energy)] pairs [icm_ising] returned. *)
Definition sweeps (log : list event) : list (ndarray Z * ndarray float) :=
  omap (fun e =>
          match e with
          | EvIcmIsing _ _ _ (Ok r) => Some r
          | _ => None
          end) log.

(** The log of one pass through the body that ran to its end, and of the
    steps before the loop. *)
Definition pass_events (image_gauss : ndarray float) (K : Z) (beta : float)
    (i : nat) (st : loop_state) (PLN PVE : ndarray float)
    (mu_est sigmasq_est mu_upd sigmasq_upd : vec) (negll : ndarray float)
    (final_segmentation : ndarray Z) (energy : ndarray float) : list event :=
  [EvIteration i;
   EvProbNeighborhood (seg_init st) beta K (Ok PLN);
   EvProbImage image_gauss K (mu st) (sigmasq st) PLN (Ok PVE);
   EvUpdateParam image_gauss PVE (mu st) K (Ok (mu_est, sigmasq_est));
   EvNegLogL image_gauss mu_upd sigmasq_upd K (Ok negll);
   EvIcmIsing negll beta (seg_init st) (Ok (final_segmentation, energy))].

Definition prepare_events (image : ndarray float) (K : Z)
    (mu_est sigma_est mu sigma : vec) (neglogl : ndarray float)
    (seg_init : ndarray Z) (mu_seg sigma_seg : vec)
    (zero_noise : ndarray float) : list event :=
  [EvInitParam image K (Ok (mu_est, sigma_est));
   EvNegLogL image mu (Xp.square sigma) K (Ok neglogl);
   EvInitML neglogl (Ok seg_init);
   EvSegStats image seg_init K (Ok (mu_seg, sigma_seg));
   EvAddNoise (Xp.zeros_like_plus image 0.001%float) 10000 1 "gaussian"
     (Ok zero_noise)].

(** [mu] in the order [argsort] produces, and in the order of [<=]. *)
Definition ascending (mu : vec) : Prop :=
  Sorted (fun a b => Xp.sort_le a b = true) mu.

Definition ascending_leb (mu : vec) : Prop :=
  Sorted (fun a b => (a <=? b)%float = true) mu.

(** [b] is [a] sorted: a rearrangement [a[p]] of [a] that is ascending,
    with the companion array [s] rearranged by the same [p] into [t]. *)
Definition sorted_with (a s b t : vec) : Prop :=
  exists p : list nat,
    p ≡ₚ seq 0 (length a) /\
    Xp.take_indices a p = Ok b /\
    Xp.take_indices s p = Ok t /\
    ascending b.

(** Collaborators that return on every input with arrays of the shapes the
    driver indexes: [add_noise] keeps the shape of its argument, every
    estimate has a [sigma] for each [mu], and a posterior map has a last
    axis. *)
Record well_behaved (C : collaborators) : Prop := WellBehaved {
  wb_init : forall a K, exists mu sigma,
      initialize_param_uniform C a K = Ok (mu, sigma) /\
      length mu <= length sigma;
  wb_negll : forall a mu s K, exists r, negloglikelihood C a mu s K = Ok r;
  wb_stats : forall a g K, exists r, seg_stats C a g K = Ok r;
  wb_prob : forall a K mu s n, exists r,
      prob_image C a K mu s n = Ok r /\ shape r <> [];
  wb_update : forall a p mu K, exists mu' s',
      update_param C a p mu K = Ok (mu', s') /\ length mu' <= length s';
  wb_ml : forall n, exists r, initialize_maximum_likelihood C n = Ok r;
  wb_nbh : forall g b K, exists r, prob_neighborhood C g b K = Ok r;
  wb_icm : forall n b g, exists r, icm_ising C n b g = Ok r;
  wb_noise : forall a snr S0 t, exists r,
      add_noise C a snr S0 t = Ok r /\ shape r = shape a
}.

(* ================================================================= *)
(** ** The specification's wording, for comparison with the code *)

Module Spec.

Open Scope float_scope.

(** "rescale to [0,1] via (x - min) / max", with the volume's own minimum
    and maximum. *)
Definition rescale (a : ndarray float) (lo hi : float) : ndarray float :=
  NdArray (shape a) ((fun x => (x - lo) / hi) <$> data a).

(** "the sum of all finite entries of the iteration's EnergyMap". *)
Definition finite_energy (sum : list float -> float) (e : ndarray float)
  : float :=
  sum (filter (fun x => is_finite x = true) (data e)).

(** The stopping test: evaluated only when [i mod 10 == 0] and [i != 0],
    on [tol = tolerance * (max - min)] of the whole history and the window
    [history[len(history)-5 : i]]. *)
Definition stopping_test (tolerance : float) (history : list float) (i : nat)
  : bool :=
  if bool_decide (i mod 10 = 0)%nat && bool_decide (i <> 0)%nat then
    let window :=
      py_slice history (Z.of_nat (length history) - 5) (Z.of_nat i) in
    match Xp.amax history, Xp.amin history, Xp.amax window, Xp.amin window with
    | Ok hi, Ok lo, Ok whi, Ok wlo =>
        abs (whi - wlo) <? tolerance * (hi - lo)
    | _, _, _, _ => false
    end
  else false.

(** "nclasses < 1, beta < 0, non-positive tolerance/maxIter when supplied". *)
Definition invalid_parameters (nclasses : Z) (beta : float)
    (tolerance : option float) (max_iter : option Z) : Prop :=
  (nclasses < 1)%Z \/ (beta <? 0) = true \/
  (exists t, tolerance = Some t /\ (t <=? 0) = true) \/
  (exists m, max_iter = Some m /\ (m <= 0)%Z).

(** "reject at entry, no partial execution": the call raises and leaves
    the world as it found it. *)
Definition rejected_at_entry {A} (w : world) (out : result A * world) : Prop :=
  (exists e, out.1 = Err e) /\ out.2 = w.

End Spec.

(* ================================================================= *)
(** ** Sample collaborators and worlds *)

Module Sample.

Open Scope float_scope.

(** A two-class stand-in for the observation model and the ICM engine:
    fixed estimates, uniform posteriors, the previous labels as the sweep's
    result and a given energy map; the noise realisation is the signal
    itself; sums run left to right. *)
Definition stub (energy : list float) : collaborators :=
  {| initialize_param_uniform := fun _ _ => Ok ([0.75; 0.25], [0.2; 0.1]);
     negloglikelihood := fun a _ _ K =>
       Ok (NdArray (shape a ++ [Z.to_nat K])
             (data a ≫= fun x => replicate (Z.to_nat K) x));
     seg_stats := fun _ _ _ => Ok ([0.9; 0.1], [0.3; 0.1]);
     prob_image := fun a K _ _ _ =>
       Ok (NdArray (shape a ++ [Z.to_nat K])
             (data a ≫= fun _ => replicate (Z.to_nat K) 0.5));
     update_param := fun _ _ _ _ => Ok ([0.6; 0.2], [0.04; 0.01]);
     initialize_maximum_likelihood := fun n =>
       Ok (NdArray (removelast (shape n))
             (replicate (foldr Nat.mul 1%nat (removelast (shape n))) 0%Z));
     prob_neighborhood := fun g _ K =>
       Ok (NdArray (shape g ++ [Z.to_nat K])
             (data g ≫= fun _ => replicate (Z.to_nat K) 0.5));
     icm_ising := fun _ _ g => Ok (g, NdArray (shape g) energy);
     add_noise := fun a _ _ _ => Ok a;
     xp_sum := fun l => fold_left add l 0 |}.

(** The same energy map at every pass. *)
Definition steady : collaborators := stub [1; 2].

(** An energy map with an infinite entry at every pass. *)
Definition unbounded : collaborators := stub [infinity; 1].

(** The reference the caller holds to its volume. *)
Definition volume : loc := 1%positive.

(** A freshly constructed classifier, verbose as by default, in a store that
    holds the caller's volume of two voxels. *)
Definition world_of (voxels : list float) (save_history : bool) : world :=
  {| heap := {[ volume := NdArray [1; 1; 2]%nat voxels ]};
     self := init save_history true;
     stdout := [];
     calls := [] |}.

End Sample.

(** The object after the passes logged in [new] were recorded in its
    history lists. *)
Definition extended (C : collaborators) (s : TissueClassifierHMRF)
    (new : list event) : TissueClassifierHMRF :=
  {| save_history := save_history s;
     segmentations := segmentations s ++ (sweeps new).*1;
     pves := pves s ++ posteriors new;
     energies := energies s ++ (sweeps new).*2;
     energies_sum := energies_sum s ++ (energy_total C <$> (sweeps new).*2);
     verbose := verbose s |}.

(** Computations that leave the store as it is, and computations that leave
    every array of the store as it is (they may add arrays), whether they
    return or raise. *)
Definition heap_stable {A} (m : M A) : Prop :=
  forall w, heap (m w).2 = heap w.

Definition heap_kept {A} (m : M A) : Prop :=
  forall w l b, heap w !! l = Some b -> heap (m w).2 !! l = Some b.

(** [used] is the estimate [est] with its means sorted and its second
    component rearranged alike. *)
Definition sorted_estimate (est used : vec * vec) : Prop :=
  sorted_with est.1 est.2 used.1 used.2.

(** The world with the classifier made silent and the output discarded. *)
Definition silenced (w : world) : world :=
  {| heap := heap w;
     self := {| save_history := save_history (self w);
                segmentations := segmentations (self w);
                pves := pves (self w);
                energies := energies (self w);
                energies_sum := energies_sum (self w);
                verbose := false |};
     stdout := [];
     calls := calls w |}.

(** Computations whose result and whose world, the output apart, do not
    depend on [verbose]. *)
Definition unobserving {A} (m : M A) : Prop :=
  forall w, m (silenced w) = ((m w).1, silenced (m w).2).

(** The world with history recording off and the history lists empty. *)
Definition without_history (w : world) : world :=
  {| heap := heap w;
     self := init false (verbose (self w));
     stdout := stdout w;
     calls := calls w |}.

(** Computations whose result and whose world, the history lists apart, do
    not depend on [save_history] or on what the lists hold. *)
Definition unrecording {A} (m : M A) : Prop :=
  forall w, m (without_history w) = ((m w).1, without_history (m w).2).

(** The segmentation each neighbourhood step is given, the likelihood and
    segmentation each ICM sweep is given, the prior each posterior step is
    given, and the posterior map and means each re-estimation is given. *)
Definition neighbourhood_inputs (log : list event) : list (ndarray Z) :=
  omap (fun e =>
          match e with
          | EvProbNeighborhood seg _ _ _ => Some seg
          | _ => None
          end) log.

Definition sweep_inputs (log : list event)
  : list (ndarray float * ndarray Z) :=
  omap (fun e =>
          match e with
          | EvIcmIsing negll _ seg _ => Some (negll, seg)
          | _ => None
          end) log.

Definition posterior_priors (log : list event) : list (ndarray float) :=
  omap (fun e =>
          match e with
          | EvProbImage _ _ _ _ PLN _ => Some PLN
          | _ => None
          end) log.

Definition update_inputs (log : list event) : list (ndarray float * vec) :=
  omap (fun e =>
          match e with
          | EvUpdateParam _ PVE mu _ _ => Some (PVE, mu)
          | _ => None
          end) log.

(** The priors [prob_neighborhood] returned and the likelihoods
    [negloglikelihood] returned. *)
Definition priors (log : list event) : list (ndarray float) :=
  omap (fun e =>
          match e with
          | EvProbNeighborhood _ _ _ (Ok r) => Some r
          | _ => None
          end) log.

Definition likelihoods (log : list event) : list (ndarray float) :=
  omap (fun e =>
          match e with
          | EvNegLogL _ _ _ _ (Ok r) => Some r
          | _ => None
          end) log.

(** The likelihood [initialize_maximum_likelihood] is given. *)
Definition ml_inputs (log : list event) : list (ndarray float) :=
  omap (fun e =>
          match e with
          | EvInitML neglogl _ => Some neglogl
          | _ => None
          end) log.

(** The object [s'] is [s] with its flags as they were and with as many
    entries appended to each of its four lists, none when recording is
    off. *)
Definition in_step (s s' : TissueClassifierHMRF) : Prop :=
  save_history s' = save_history s /\ verbose s' = verbose s /\
  exists segs ps es sums,
    segmentations s' = segmentations s ++ segs /\
    pves s' = pves s ++ ps /\
    energies s' = energies s ++ es /\
    energies_sum s' = energies_sum s ++ sums /\
    length ps = length segs /\ length es = length segs /\
    length sums = length segs /\
    (save_history s = false -> segs = []).

(** Computations that keep the lists of [self] in step, whether they
    return or raise. *)
Definition keeps_in_step {A} (m : M A) : Prop :=
  forall w, in_step (self w) (self (m w).2).

(** [Sample.steady] with a re-estimation that raises from the second pass
    on: it returns only when it is handed the means of [seg_stats]. *)
Definition interrupted : collaborators :=
  {| initialize_param_uniform := initialize_param_uniform Sample.steady;
     negloglikelihood := negloglikelihood Sample.steady;
     seg_stats := seg_stats Sample.steady;
     prob_image := prob_image Sample.steady;
     update_param := fun image PVE mu K =>
       match mu with
       | m :: _ =>
           if (m =? 0.9)%float
           then update_param Sample.steady image PVE mu K
           else Err (Raised "interrupted")
       | [] => Err (Raised "interrupted")
       end;
     initialize_maximum_likelihood :=
       initialize_maximum_likelihood Sample.steady;
     prob_neighborhood := prob_neighborhood Sample.steady;
     icm_ising := icm_ising Sample.steady;
     add_noise := add_noise Sample.steady;
     xp_sum := xp_sum Sample.steady |}.

(* ================================================================= *)
(** * Properties *)

(** ** Running a computation *)

Lemma bind_ok {A B} (m : M A) (k : A -> M B) w b w' :
  bind m k w = (Ok b, w') ->
  exists a w1, m w = (Ok a, w1) /\ k a w1 = (Ok b, w').
Proof.
  unfold bind. destruct (m w) as [[a|e] w1]; [eauto | discriminate].
Qed.

Lemma bind_err {A B} (m : M A) (k : A -> M B) w e w' :
  m w = (Err e, w') -> bind m k w = (Err e, w').
Proof. unfold bind. intros ->. reflexivity. Qed.

Lemma bind_run {A B} (m : M A) (k : A -> M B) w a w1 :
  m w = (Ok a, w1) -> bind m k w = k a w1.
Proof. unfold bind. intros ->. reflexivity. Qed.

Lemma ret_ok {A} (a b : A) w w' : ret a w = (Ok b, w') -> a = b /\ w' = w.
Proof. unfold ret. intros [= -> ->]. done. Qed.

Lemma lift_ok {A} (r : result A) a w w' :
  lift r w = (Ok a, w') -> r = Ok a /\ w' = w.
Proof. unfold lift. intros [= -> ->]. done. Qed.

Lemma call_ok {A} (ev : result A -> event) r a w w' :
  call ev r w = (Ok a, w') ->
  r = Ok a /\
  w' = World (heap w) (self w) (stdout w) (calls w ++ [ev (Ok a)]).
Proof.
  unfold call, bind, record, lift. simpl. intros [= -> <-]. done.
Qed.

Lemma call_run {A} (ev : result A -> event) r a w :
  r = Ok a ->
  call ev r w =
  (Ok a, World (heap w) (self w) (stdout w) (calls w ++ [ev (Ok a)])).
Proof. intros ->. reflexivity. Qed.

Lemma read_ok l a w w' :
  read l w = (Ok a, w') -> heap w !! l = Some a /\ w' = w.
Proof.
  unfold read. destruct (heap w !! l); intros [= <- <-]; done.
Qed.

Lemma record_ok e u w w' :
  record e w = (Ok u, w') ->
  w' = World (heap w) (self w) (stdout w) (calls w ++ [e]).
Proof. unfold record. by intros [= <-]. Qed.

Lemma result_bind_ok {A B} (r : result A) (k : A -> result B) b :
  result_bind r k = Ok b -> exists a, r = Ok a /\ k a = Ok b.
Proof. destruct r; simpl; [eauto | discriminate]. Qed.

(** Decomposes a hypothesis that a sequence of steps returned. *)
Tactic Notation "run" hyp(H) "as" simple_intropattern(a) ident(w) ident(E) :=
  apply bind_ok in H as (a & w & E & H).

(* ================================================================= *)
(** ** The order of [argsort] *)

Section FloatOrder.

Open Scope float_scope.

Lemma SFcompare_antisym x y :
  SFcompare y x = CompOpp <$> SFcompare x y.
Proof.
  destruct x as [sx|sx| |sx mx ex], y as [sy|sy| |sy my ey];
    simpl; try reflexivity;
    try (destruct sx; reflexivity); try (destruct sy; reflexivity);
    try (destruct sx, sy; reflexivity).
  destruct sx, sy; simpl; try reflexivity;
    rewrite (Z.compare_antisym ey ex);
    destruct (ey ?= ex)%Z; simpl; try reflexivity;
    change Eq with (CompOpp Eq) at 1;
    rewrite <- (Pos.compare_cont_antisym mx my Eq); simpl;
    destruct (Pos.compare_cont Eq mx my); reflexivity.
Qed.

Lemma ltb_asym a b : (a <? b) = true -> (b <? a) = false.
Proof.
  rewrite !ltb_spec. unfold SFltb.
  rewrite (SFcompare_antisym (Prim2SF a) (Prim2SF b)).
  destruct (SFcompare (Prim2SF a) (Prim2SF b)) as [[]|]; simpl; congruence.
Qed.

Lemma ltb_nan_l a b : is_nan a = true -> (a <? b) = false.
Proof.
  unfold is_nan. rewrite ltb_spec, FloatAxioms.eqb_spec. unfold SFltb, SFeqb.
  destruct (Prim2SF a) as [s|s| |s m e], (Prim2SF b);
    simpl; try reflexivity; try discriminate.
  all: try (destruct s; simpl; discriminate).
  all: rewrite ?Z.compare_refl, ?Pos.compare_cont_refl;
    destruct s; simpl; discriminate.
Qed.

Lemma ltb_nan_r a b : is_nan b = true -> (a <? b) = false.
Proof.
  unfold is_nan. rewrite ltb_spec, FloatAxioms.eqb_spec. unfold SFltb, SFeqb.
  destruct (Prim2SF b) as [s|s| |s m e], (Prim2SF a) as [s'|s'| |s' m' e'];
    simpl; try reflexivity; try discriminate.
  all: try (destruct s; simpl; discriminate).
  all: rewrite ?Z.compare_refl, ?Pos.compare_cont_refl;
    destruct s; simpl; discriminate.
Qed.

Lemma leb_of_not_ltb a b :
  is_nan a = false -> is_nan b = false -> (b <? a) = false -> (a <=? b) = true.
Proof.
  unfold is_nan. rewrite ltb_spec, leb_spec, !FloatAxioms.eqb_spec.
  unfold SFltb, SFleb, SFeqb.
  rewrite (SFcompare_antisym (Prim2SF a) (Prim2SF b)).
  destruct (Prim2SF a) as [s|s| |s m e], (Prim2SF b) as [s'|s'| |s' m' e'];
    simpl; try discriminate; try reflexivity.
  all: try (destruct s; simpl; try discriminate; try reflexivity; fail).
  all: try (destruct s'; simpl; try discriminate; try reflexivity; fail).
  all: try (destruct s, s'; simpl; try discriminate; try reflexivity; fail).
  intros _ _.
  destruct s, s'; simpl; try discriminate; try reflexivity;
    destruct (e ?= e')%Z; simpl; try discriminate; try reflexivity;
    destruct (Pos.compare_cont Eq m m'); simpl; try discriminate; reflexivity.
Qed.

Lemma sort_lt_asym a b : Xp.sort_lt a b = true -> Xp.sort_lt b a = false.
Proof.
  unfold Xp.sort_lt. intros H.
  apply orb_true_iff in H as [H|H].
  - destruct (is_nan a) eqn:Ha. { rewrite ltb_nan_l in H; [discriminate|done]. }
    destruct (is_nan b) eqn:Hb. { rewrite ltb_nan_r in H; [discriminate|done]. }
    rewrite (ltb_asym _ _ H). reflexivity.
  - apply andb_true_iff in H as [Hb Ha]. apply negb_true_iff in Ha.
    rewrite Ha, (ltb_nan_l b a Hb). reflexivity.
Qed.

Lemma sort_le_leb a b :
  is_nan a = false -> is_nan b = false ->
  Xp.sort_le a b = true -> (a <=? b) = true.
Proof.
  unfold Xp.sort_le, Xp.sort_lt. intros Ha Hb H.
  apply negb_true_iff, orb_false_iff in H as [H _].
  by apply leb_of_not_ltb.
Qed.

End FloatOrder.

Section Argsort.

Import Xp.

Lemma insert_by_perm x l : insert_by x l ≡ₚ x :: l.
Proof.
  induction l as [|y r IH]; simpl; [done|].
  destruct (sort_lt y.2 x.2); [|done].
  rewrite IH. apply Permutation_swap.
Qed.

Lemma insert_by_hd x y l :
  pair_le y x -> HdRel pair_le y l -> HdRel pair_le y (insert_by x l).
Proof.
  intros Hyx Hl. destruct l as [|z r]; simpl.
  - by constructor.
  - destruct (sort_lt z.2 x.2); constructor; [|done].
    by inversion Hl.
Qed.

Lemma insert_by_sorted x l :
  Sorted pair_le l -> Sorted pair_le (insert_by x l).
Proof.
  induction 1 as [|y r Hr IH Hd]; simpl.
  - repeat constructor.
  - destruct (sort_lt y.2 x.2) eqn:E.
    + constructor; [done|]. apply insert_by_hd; [|done].
      unfold pair_le, sort_le. by rewrite (sort_lt_asym _ _ E).
    + constructor; [by constructor|]. constructor.
      unfold pair_le, sort_le. by rewrite E.
Qed.

Lemma sorted_pairs_perm a : sorted_pairs a ≡ₚ indexed a.
Proof.
  unfold sorted_pairs. induction (indexed a) as [|x l IH]; simpl; [done|].
  by rewrite insert_by_perm, IH.
Qed.

Lemma sorted_pairs_sorted a : Sorted pair_le (sorted_pairs a).
Proof.
  unfold sorted_pairs. induction (indexed a) as [|x l IH]; simpl.
  - constructor.
  - by apply insert_by_sorted.
Qed.

Lemma indexed_fst a : (indexed a).*1 = seq 0 (length a).
Proof.
  unfold indexed. rewrite fmap_imap.
  rewrite (imap_ext _ (fun i _ => id i)) by done.
  rewrite imap_seq_0. by rewrite list_fmap_id.
Qed.

Lemma indexed_lookup a i x : (i, x) ∈ indexed a -> a !! i = Some x.
Proof.
  intros H. apply elem_of_lookup_imap_1 in H as (j & y & [= -> ->] & H). done.
Qed.

Lemma take_indices_pairs a (l : list (nat * float)) :
  (forall i x, (i, x) ∈ l -> a !! i = Some x) ->
  take_indices a l.*1 = Ok l.*2.
Proof.
  induction l as [|[i x] l IH]; intros H; [done|].
  rewrite !fmap_cons. cbn [take_indices fst snd].
  rewrite (H i x) by left. rewrite IH; [done|].
  intros j y Hj. apply H. by right.
Qed.

Lemma argsort_perm a : argsort a ≡ₚ seq 0 (length a).
Proof.
  unfold argsort.
  by rewrite sorted_pairs_perm, indexed_fst.
Qed.

Lemma argsort_take a : take_indices a (argsort a) = Ok (sorted_pairs a).*2.
Proof.
  apply take_indices_pairs. intros i x H. apply indexed_lookup.
  by rewrite <- sorted_pairs_perm.
Qed.

Lemma Sorted_fmap {A B} (R : A -> A -> Prop) (S : B -> B -> Prop) (f : A -> B) l :
  (forall x y, R x y -> S (f x) (f y)) -> Sorted R l -> Sorted S (f <$> l).
Proof.
  intros HRS. induction 1 as [|x l Hl IH Hd]; simpl; constructor; [done|].
  destruct Hd; simpl; constructor. by apply HRS.
Qed.

Lemma argsort_ascending a b :
  take_indices a (argsort a) = Ok b -> ascending b.
Proof.
  rewrite argsort_take. intros [= <-].
  apply (Sorted_fmap pair_le); [by intros [] []|]. apply sorted_pairs_sorted.
Qed.

Lemma argsort_sorted_with a s b t :
  take_indices a (argsort a) = Ok b ->
  take_indices s (argsort a) = Ok t ->
  sorted_with a s b t.
Proof.
  intros Hb Ht. exists (argsort a).
  split; [apply argsort_perm|]. eauto using argsort_ascending.
Qed.

Lemma take_indices_length a p b : take_indices a p = Ok b -> length b = length p.
Proof.
  revert b. induction p as [|i p IH]; simpl; intros b.
  - by intros [= <-].
  - destruct (a !! i); [|done]. destruct (take_indices a p); [|done].
    intros [= <-]. simpl. f_equal. by apply IH.
Qed.

Lemma take_indices_total a p :
  Forall (fun i => (i < length a)%nat) p -> exists b, take_indices a p = Ok b.
Proof.
  induction 1 as [|i p Hi Hp [b IH]]; [by eexists|].
  cbn [take_indices].
  apply lookup_lt_is_Some_2 in Hi as [x ->]. rewrite IH. by eexists.
Qed.

Lemma ascending_leb_of a :
  Forall (fun x => is_nan x = false) a -> ascending a -> ascending_leb a.
Proof.
  intros Hn Ha. induction Ha as [|x l Hl IH Hd]; constructor.
  - apply IH. by inversion Hn.
  - destruct Hd as [|y l Hxy]; constructor.
    inversion Hn as [|? ? Hx Hrest]; subst. inversion Hrest; subst.
    by apply sort_le_leb.
Qed.
End Argsort.

(* ================================================================= *)
(** ** The steps of [classify], inverted *)

Section Steps.

Variable C : collaborators.

Open Scope float_scope.

Lemma save_ok fs pve e u w w' :
  save C fs pve e w = (Ok u, w') ->
  w' = World (heap w)
         (if save_history (self w) then record_history C (self w) fs pve e
          else self w)
         (stdout w) (calls w).
Proof.
  unfold save, bind, get_self, set_self, ret.
  destruct w as [h s o c]; simpl.
  destruct (save_history s); by intros [= <-].
Qed.

Lemma converged_ok tol es i b :
  converged tol es i = Ok b ->
  exists hi lo whi wlo,
    Xp.amax es = Ok hi /\ Xp.amin es = Ok lo /\
    Xp.amax (py_slice es (Z.of_nat (length es) - 5) (Z.of_nat i)) = Ok whi /\
    Xp.amin (py_slice es (Z.of_nat (length es) - 5) (Z.of_nat i)) = Ok wlo /\
    b = (abs (whi - wlo) <? tol * (hi - lo)).
Proof.
  unfold converged. intros H.
  apply result_bind_ok in H as (hi & E1 & H).
  apply result_bind_ok in H as (lo & E2 & H).
  apply result_bind_ok in H as (whi & E3 & H).
  apply result_bind_ok in H as (wlo & E4 & H).
  injection H as <-. eauto 10.
Qed.

(** One pass that ran to its end: what each collaborator returned, what
    the pass logged, printed and recorded, and the state it left. *)
Lemma body_inv ig K beta ab tol i st w st' brk w' :
  body C ig K beta ab tol i st w = (Ok (st', brk), w') ->
  exists PLN pve mu_r sq_r mu_u sq_u negll fs e,
    prob_neighborhood C (seg_init st) beta K = Ok PLN /\
    prob_image C ig K (mu st) (sigmasq st) PLN = Ok pve /\
    update_param C ig pve (mu st) K = Ok (mu_r, sq_r) /\
    Xp.take_indices mu_r (Xp.argsort mu_r) = Ok mu_u /\
    Xp.take_indices sq_r (Xp.argsort mu_r) = Ok sq_u /\
    negloglikelihood C ig mu_u sq_u K = Ok negll /\
    icm_ising C negll beta (seg_init st) = Ok (fs, e) /\
    calls w' = calls w ++
      pass_events ig K beta i st PLN pve mu_r sq_r mu_u sq_u negll fs e /\
    heap w' = heap w /\
    self w' = (if save_history (self w)
               then record_history C (self w) fs pve e else self w) /\
    stdout w' = (if verbose (self w)
                 then stdout w ++ [progress_line i]
                 else stdout w) /\
    energy_sum st' =
      (if ab then energy_sum st ++ [energy_total C e]
       else energy_sum st) /\
    final_segmentation st' = Labels fs /\
    PVE st' = Some pve /\
    (if ab && (bool_decide (i mod 10 = 0) && bool_decide (i <> 0))%nat
     then converged tol (energy_sum st') i = Ok brk
     else brk = false) /\
    (if brk
     then seg_init st' = seg_init st /\ mu st' = mu st /\
          sigmasq st' = sigmasq st
     else seg_init st' = fs /\ mu st' = mu_u /\ sigmasq st' = sq_u).
Proof.
  unfold body. intros H.
  run H as u w1 E. apply record_ok in E as ->.
  run H as s w1 E. injection E as <- <-.
  run H as u' w1 E.
  assert (w1 = World (heap w)
            (self w)
            (if verbose (self w)
             then stdout w ++ [progress_line i] else stdout w)
            (calls w ++ [EvIteration i])) as ->.
  { simpl in E. destruct (verbose (self w)); by injection E as <- <-. }
  clear E.
  run H as PLN w1 E. apply call_ok in E as [E1 ->].
  run H as pve w1 E. apply call_ok in E as [E2 ->].
  run H as [mu_r sq_r] w1 E. apply call_ok in E as [E3 ->].
  run H as mu_u w1 E. apply lift_ok in E as [E4 ->].
  run H as sq_u w1 E. apply lift_ok in E as [E5 ->].
  run H as negll w1 E. apply call_ok in E as [E6 ->].
  run H as [fs e] w1 E. apply call_ok in E as [E7 ->].
  run H as u'' w1 E. apply save_ok in E as ->.
  run H as stop w1 E.
  exists PLN, pve, mu_r, sq_r, mu_u, sq_u, negll, fs, e. simpl in *.
  destruct (ab && _) eqn:Ec.
  - apply lift_ok in E as [E ->].
    destruct stop; apply ret_ok in H as [[= <- <-] ->]; simpl.
    all: repeat (split; [first [done | by rewrite <- !app_assoc] |]); done.
  - apply ret_ok in E as [<- ->].
    apply ret_ok in H as [[= <- <-] ->]; simpl.
    repeat (split; [first [done | by rewrite <- !app_assoc] |]); done.
Qed.

(** The working volume: the caller's array when its maximum does not exceed
    1, else a new array. *)
Lemma normalize_inv image image' w w' :
  normalize image w = (Ok image', w') ->
  exists a hi,
    heap w !! image = Some a /\
    Xp.amax (data a) = Ok hi /\
    self w' = self w /\ stdout w' = stdout w /\ calls w' = calls w /\
    if 1 <? hi then
      exists lo hi',
        Xp.amin (data a) = Ok lo /\
        Xp.amax (data (Xp.sub_scalar a lo)) = Ok hi' /\
        image' = fresh (dom (heap w)) /\
        heap w' =
          <[image' := Xp.div_scalar (Xp.sub_scalar a lo) hi']> (heap w)
    else image' = image /\ heap w' = heap w.
Proof.
  unfold normalize. intros H.
  run H as a w1 E. apply read_ok in E as [Ha ->].
  run H as hi w1 E. apply lift_ok in E as [Hhi ->].
  exists a, hi. do 2 (split; [done|]).
  destruct (1 <? hi).
  - run H as lo w1 E. apply lift_ok in E as [Hlo ->].
    run H as l w1 E. injection E as <- <-.
    run H as a' w1 E. apply read_ok in E as [Ha' ->].
    simpl in Ha'. rewrite lookup_insert_eq in Ha'. injection Ha' as <-.
    run H as hi' w1 E. apply lift_ok in E as [Hhi' ->].
    run H as u w1 E. injection E as _ <-.
    apply ret_ok in H as [<- ->]. simpl.
    do 3 (split; [done|]). exists lo, hi'.
    do 3 (split; [done|]). apply insert_insert_eq.
  - apply ret_ok in H as [<- ->]. done.
Qed.

(** The steps before the loop. *)
Lemma prepare_inv image nclasses img ig K s0 st0 w w' :
  prepare C image nclasses w = (Ok (img, ig, K, s0, st0), w') ->
  exists image' mu_e sg_e mu0 sg0 nll mu1 sg1 zn,
    K = (nclasses + 1)%Z /\
    normalize image w =
      (Ok image', World (heap w') (self w) (stdout w) (calls w)) /\
    heap w' !! image' = Some img /\
    initialize_param_uniform C img K = Ok (mu_e, sg_e) /\
    Xp.take_indices mu_e (Xp.argsort mu_e) = Ok mu0 /\
    Xp.take_indices sg_e (Xp.argsort mu_e) = Ok sg0 /\
    negloglikelihood C img mu0 (Xp.square sg0) K = Ok nll /\
    initialize_maximum_likelihood C nll = Ok s0 /\
    seg_stats C img s0 K = Ok (mu1, sg1) /\
    add_noise C (Xp.zeros_like_plus img 0.001) 10000 1 "gaussian" = Ok zn /\
    Xp.where_zero img zn = Ok ig /\
    calls w' = calls w ++
      prepare_events img K mu_e sg_e mu0 sg0 nll s0 mu1 sg1 zn /\
    self w' = self w /\ stdout w' = stdout w /\
    st0 = {| seg_init := s0;
             mu := mu1;
             sigmasq := Xp.square sg1;
             final_segmentation := EmptyLike (shape img);
             PVE := None;
             energy_sum := [1e-05] |}.
Proof.
  unfold prepare. intros H.
  run H as image' w1 E.
  destruct (normalize_inv _ _ _ _ E) as (a & hi & _ & _ & Hs & Ho & Hc & _).
  run H as img' w2 E'. apply read_ok in E' as [Himg ->].
  run H as [mu_e sg_e] w2 E1. apply call_ok in E1 as [E1 ->].
  run H as mu0 w2 E2. apply lift_ok in E2 as [E2 ->].
  run H as sg0 w2 E3. apply lift_ok in E3 as [E3 ->].
  run H as nll w2 E4. apply call_ok in E4 as [E4 ->].
  run H as s0' w2 E5. apply call_ok in E5 as [E5 ->].
  run H as [mu1 sg1] w2 E6. apply call_ok in E6 as [E6 ->].
  run H as zn w2 E7. apply call_ok in E7 as [E7 ->].
  run H as ig' w2 E8. apply lift_ok in E8 as [E8 ->].
  apply ret_ok in H as [[= <- <- <- <- <-] ->]. simpl.
  exists image', mu_e, sg_e, mu0, sg0, nll, mu1, sg1, zn.
  split; [done|]. split.
  { rewrite E. f_equal. destruct w1; simpl in *; congruence. }
  repeat (split; [first [done | by rewrite Hc, <- !app_assoc] |]). done.
Qed.

(** The loop rule: a property of the passes done so far that holds before
    the loop and that every pass which has not stopped extends, holds of the
    passes the loop ran; the loop ran the whole range unless a pass
    stopped it. *)
Lemma for_loop_rule (P : list nat -> bool -> loop_state -> world -> Prop)
    ig K beta ab tol range st w st' w' :
  P [] false st w ->
  (forall done i rest st1 w1 st2 brk w2,
      range = done ++ i :: rest ->
      P done false st1 w1 ->
      body C ig K beta ab tol i st1 w1 = (Ok (st2, brk), w2) ->
      P (done ++ [i]) brk st2 w2) ->
  for_loop C ig K beta ab tol range st w = (Ok st', w') ->
  exists done brk rest,
    range = done ++ rest /\ P done brk st' w' /\ (brk = false -> rest = []).
Proof.
  intros H0 Hstep.
  assert (forall todo done st1 w1,
             range = done ++ todo -> P done false st1 w1 ->
             for_loop C ig K beta ab tol todo st1 w1 = (Ok st', w') ->
             exists done' brk rest,
               range = done' ++ rest /\ P done' brk st' w' /\
               (brk = false -> rest = [])) as Hgen.
  { induction todo as [|i todo IH]; intros done st1 w1 Hr HP H.
    - apply ret_ok in H as [<- <-]. exists done, false, []. done.
    - simpl in H. run H as [st2 brk] w2 E.
      pose proof (Hstep _ _ _ _ _ _ _ _ Hr HP E) as HP'.
      destruct brk.
      + apply ret_ok in H as [<- <-]. exists (done ++ [i]), true, todo.
        split; [by rewrite <- app_assoc|]. done.
      + apply (IH (done ++ [i]) st2 w2); [by rewrite <- app_assoc|done..]. }
  intros H. by apply (Hgen range [] st w).
Qed.

End Steps.

(* ================================================================= *)
(** ** Whole runs *)

Section Runs.

Variable C : collaborators.

Open Scope float_scope.

(** The loop of a call that returned: the steps before it, then the
    passes. *)
Lemma classify_loop_inv image nclasses beta tolerance max_iter s0 st w w' :
  classify_loop C image nclasses beta tolerance max_iter w
  = (Ok (s0, st), w') ->
  exists img ig K st0 w1,
    prepare C image nclasses w = (Ok (img, ig, K, s0, st0), w1) /\
    iterate C ig K beta tolerance max_iter st0 w1 = (Ok st, w').
Proof.
  unfold classify_loop. intros H.
  run H as [[[[img ig] K] s0'] st0] w1 E1.
  run H as st' w2 E2.
  apply ret_ok in H as [[= <- <-] ->].
  exists img, ig, K, st0, w1. done.
Qed.

(** A call that returned ran its loop and found [PVE] bound. *)
Lemma classify_inv image nclasses beta tolerance max_iter s0 sf pv w w' :
  classify C image nclasses beta tolerance max_iter w = (Ok (s0, sf, pv), w') ->
  exists st pve,
    classify_loop C image nclasses beta tolerance max_iter w
    = (Ok (s0, st), w') /\
    PVE st = Some pve /\
    Xp.drop_first_channel pve = Ok pv /\
    sf = final_segmentation st.
Proof.
  unfold classify. intros H.
  run H as [s0' st] w1 E1.
  run H as pv' w2 E2.
  apply ret_ok in H as [[= <- <- <-] ->].
  destruct (PVE st) as [pve|] eqn:Hp; [|discriminate].
  apply lift_ok in E2 as [E2 ->].
  exists st, pve. done.
Qed.

Lemma stopped_only_by_test (ab : bool) (i : nat) (X : Prop) :
  (if ab && (bool_decide (i mod 10 = 0) && bool_decide (i <> 0))%nat
   then X else true = false) ->
  ab = true /\ (i mod 10 = 0)%nat /\ i <> 0%nat /\ 10 <= i /\ X.
Proof.
  destruct ab; cbn [andb]; [|discriminate].
  destruct (bool_decide (i mod 10 = 0)%nat) eqn:E1; cbn [andb]; [|discriminate].
  destruct (bool_decide (i <> 0%nat)) eqn:E2; [|discriminate].
  apply bool_decide_eq_true in E1, E2. intros HX.
  do 3 (split; [done|]). split; [|done].
  destruct (decide (i < 10)%nat) as [Hlt|]; [|lia].
  rewrite Nat.mod_small in E1 by done. done.
Qed.

Lemma iterations_app l1 l2 : iterations (l1 ++ l2) = iterations l1 ++ iterations l2.
Proof. apply omap_app. Qed.

(** The passes a loop that returned has run: a prefix of the range, all of
    it unless the last pass ran the stopping test. *)
Lemma for_loop_passes ig K beta ab tol range st w st' w' :
  for_loop C ig K beta ab tol range st w = (Ok st', w') ->
  exists done rest,
    range = done ++ rest /\
    iterations (calls w') = iterations (calls w) ++ done /\
    (rest = [] \/
     ab = true /\
     exists i, last done = Some i /\ (i mod 10 = 0)%nat /\ i <> 0%nat).
Proof.
  intros H.
  apply (for_loop_rule C
           (fun done brk _ w2 =>
              iterations (calls w2) = iterations (calls w) ++ done /\
              (brk = true ->
               ab = true /\
               exists i, last done = Some i /\ (i mod 10 = 0)%nat /\
                         i <> 0%nat))) in H.
  - destruct H as (done & brk & rest & Hr & [Hi Hb] & Hrest).
    exists done, rest. do 2 (split; [done|]).
    destruct brk; [right; by apply Hb | left; by apply Hrest].
  - split; [by rewrite app_nil_r | discriminate].
  - intros done i rest st1 w1 st2 brk w2 _ [Hi _] Hb.
    apply body_inv in Hb
      as (PLN & pve & mu_r & sq_r & mu_u & sq_u & negll & fs & e & Hb).
    destruct Hb as (_ & _ & _ & _ & _ & _ & _ & Hc & _ & _ & _ & _ & _ & _ & Ht & _).
    split.
    + rewrite Hc, iterations_app, Hi, <- app_assoc. reflexivity.
    + intros ->. apply stopped_only_by_test in Ht as (? & ? & ? & _).
      split; [done|]. exists i. by rewrite last_snoc.
Qed.

(** The loop runs every index of its range when stopping is not allowed, and
    when the range ends at or before index 10. *)
Lemma for_loop_runs_all ig K beta ab tol n st w st' w' :
  ab = false \/ n <= 10 ->
  for_loop C ig K beta ab tol (seq 0 n) st w = (Ok st', w') ->
  iterations (calls w') = iterations (calls w) ++ seq 0 n.
Proof.
  intros Hn H.
  apply for_loop_passes in H as (done & rest & Hr & Hi & [->|Hb]).
  - rewrite app_nil_r in Hr. by rewrite Hr.
  - destruct Hb as (Hab & i & Hl & Hm & H0).
    destruct Hn as [->|Hn]; [done|].
    assert (i ∈ seq 0 n) as Hin.
    { rewrite Hr. apply elem_of_app. left.
      apply last_Some in Hl as [l' ->]. apply elem_of_app. right. by left. }
    apply elem_of_seq in Hin.
    assert (10 <= i)%nat.
    { destruct (decide (i < 10)%nat) as [Hlt|]; [|lia].
      rewrite Nat.mod_small in Hm by done. done. }
    lia.
Qed.

(** The passes of a call: the whole range in the two cases above. *)
Lemma classify_loop_runs_all image nclasses beta tolerance max_iter r w w' :
  allow_break max_iter tolerance = false \/
  (default 100 max_iter <= 10)%Z ->
  classify_loop C image nclasses beta tolerance max_iter w = (Ok r, w') ->
  iterations (calls w') =
  iterations (calls w) ++ seq 0 (Z.to_nat (default 100%Z max_iter)).
Proof.
  destruct r as [s0 st]. intros Hm H.
  apply classify_loop_inv in H as (img & ig & K & st0 & w1 & Hp & Hl).
  apply prepare_inv in Hp
    as (image' & mu_e & sg_e & mu0 & sg0 & nll & mu1 & sg1 & zn & Hp).
  destruct Hp as (_ & _ & _ & _ & _ & _ & _ & _ & _ & _ & _ & Hc & _).
  unfold iterate in Hl.
  apply for_loop_runs_all in Hl; [|destruct Hm; [by left | right; lia]].
  rewrite Hl, Hc, iterations_app. simpl. by rewrite app_nil_r.
Qed.

End Runs.

(** Names the facts [body_inv] gives about a pass. *)
Ltac body_facts H :=
  apply body_inv in H
    as (?PLN & ?pve & ?mu_r & ?sq_r & ?mu_u & ?sq_u & ?negll & ?fs & ?e &
        ?HPLN & ?Hpve & ?Hupd & ?Hmu & ?Hsq & ?Hnegll & ?Hicm & ?Hcalls &
        ?Hheap & ?Hself & ?Hout & ?Hes & ?Hfs & ?HPVE & ?Htest & ?Hnext).

(** Names the facts [prepare_inv] gives about the steps before the loop. *)
Ltac prepare_facts H :=
  apply prepare_inv in H
    as (?image' & ?mu_e & ?sg_e & ?mu0 & ?sg0 & ?nll & ?mu1 & ?sg1 & ?zn &
        ?HK & ?Hnorm & ?Himg & ?Hinit & ?Hmu0 & ?Hsg0 & ?Hnll & ?Hml &
        ?Hstats & ?Hnoise & ?Hwhere & ?Hpcalls & ?Hpself & ?Hpout & ?Hst0).

Lemma sweeps_app l1 l2 : sweeps (l1 ++ l2) = sweeps l1 ++ sweeps l2.
Proof. apply omap_app. Qed.

Section History.

Variable C : collaborators.

(** What the loop appends to the history: with stopping allowed, one sum
    per pass, of that pass's energy map; otherwise nothing. *)
Lemma for_loop_history ig K beta ab tol range st w st' w' :
  for_loop C ig K beta ab tol range st w = (Ok st', w') ->
  exists new,
    calls w' = calls w ++ new /\
    length (sweeps new) = length (iterations new) /\
    energy_sum st' =
      energy_sum st ++ (if ab then energy_total C <$> (sweeps new).*2 else []).
Proof.
  intros H.
  apply (for_loop_rule C
           (fun _ _ st2 w2 =>
              exists new,
                calls w2 = calls w ++ new /\
                length (sweeps new) = length (iterations new) /\
                energy_sum st2 =
                  energy_sum st ++
                  (if ab then energy_total C <$> (sweeps new).*2 else []))) in H.
  - by destruct H as (_ & _ & _ & _ & H & _).
  - exists []. destruct ab; simpl; by rewrite !app_nil_r.
  - intros done i rest st1 w1 st2 brk w2 _ (new & Hc & Hl & He) Hb.
    body_facts Hb.
    exists (new ++ pass_events ig K beta i st1 PLN pve mu_r sq_r mu_u sq_u
                     negll fs e).
    rewrite Hcalls, Hc, <- app_assoc. split; [done|].
    rewrite sweeps_app, iterations_app, !length_app, Hl. split; [done|].
    rewrite Hes, He. destruct ab; [|done].
    by rewrite !fmap_app, <- app_assoc.
Qed.

End History.

(** ** The stopping test *)

Lemma seq_middle n done i rest :
  seq 0 n = done ++ i :: rest -> i = length done.
Proof.
  intros H. pose proof (list_lookup_middle done rest i _ eq_refl) as Hl.
  rewrite <- H in Hl. apply lookup_seq in Hl as [-> _]. done.
Qed.

(** The test of the code and the test of the specification agree wherever
    the code's test returns. *)
Lemma converged_stopping_test tol es i b :
  (i mod 10 = 0) -> i <> 0 ->
  converged tol es i = Ok b -> Spec.stopping_test tol es i = b.
Proof.
  intros Hm H0 H.
  apply converged_ok in H as (hi & lo & whi & wlo & E1 & E2 & E3 & E4 & ->).
  unfold Spec.stopping_test.
  rewrite (bool_decide_eq_true_2 _ Hm), (bool_decide_eq_true_2 _ H0).
  cbn [andb]. by rewrite E1, E2, E3, E4.
Qed.

Lemma stopping_test_guard tol es i :
  ~ ((i mod 10 = 0) /\ i <> 0) -> Spec.stopping_test tol es i = false.
Proof.
  intros H. unfold Spec.stopping_test.
  destruct (bool_decide (i mod 10 = 0)) eqn:E1; [|done].
  destruct (bool_decide (i <> 0)) eqn:E2; [|done].
  apply bool_decide_eq_true in E1, E2. tauto.
Qed.

(** What a pass decides, as the specification's test on the history the
    pass has extended. *)
Lemma body_stopping_test C ig K beta tol i st w st' brk w' :
  body C ig K beta true tol i st w = (Ok (st', brk), w') ->
  Spec.stopping_test tol (energy_sum st') i = brk /\
  length (energy_sum st') = S (length (energy_sum st)) /\
  forall k, k <= length (energy_sum st) ->
            take k (energy_sum st') = take k (energy_sum st).
Proof.
  intros H. body_facts H. rewrite Hes. split; [|split].
  - rewrite <- Hes. cbn [andb] in Htest.
    destruct (bool_decide (i mod 10 = 0)) eqn:E1; cbn [andb] in Htest.
    + destruct (bool_decide (i <> 0)) eqn:E2.
      * apply bool_decide_eq_true in E1, E2.
        by apply converged_stopping_test.
      * apply bool_decide_eq_false in E2. subst brk.
        apply stopping_test_guard. tauto.
    + apply bool_decide_eq_false in E1. subst brk.
      apply stopping_test_guard. tauto.
  - rewrite length_app. simpl. lia.
  - intros k Hk. by rewrite take_app_le.
Qed.

(** The window of the test at pass [i], when the history holds the seed and
    one entry per pass: the three entries at positions [i-3], [i-2], [i-1],
    which are those of passes [i-4], [i-3] and [i-2]. *)
Lemma window_positions (h : list float) (i : nat) :
  length h = i + 2 -> 3 <= i ->
  py_slice h (Z.of_nat (length h) - 5) (Z.of_nat i) = take 3 (drop (i - 3) h).
Proof.
  intros Hl Hi. unfold py_slice, py_index. rewrite Hl.
  destruct (Z.ltb_spec (Z.of_nat (i + 2) - 5) 0); [lia|].
  destruct (Z.ltb_spec (Z.of_nat i) 0); [lia|].
  replace (Z.to_nat (Z.min (Z.of_nat (i + 2) - 5) (Z.of_nat (i + 2))))
    with (i - 3) by lia.
  replace (Z.to_nat (Z.min (Z.of_nat i) (Z.of_nat (i + 2)))) with i by lia.
  f_equal. lia.
Qed.

(** ** The history lists of [self] *)

Lemma posteriors_app l1 l2 :
  posteriors (l1 ++ l2) = posteriors l1 ++ posteriors l2.
Proof. apply omap_app. Qed.

Lemma extended_nil C s : extended C s [] = s.
Proof. destruct s. unfold extended. simpl. by rewrite !app_nil_r. Qed.

Lemma extended_pass C s new ig K beta i st PLN pve mu_r sq_r mu_u sq_u negll
    fs e :
  extended C s
    (new ++ pass_events ig K beta i st PLN pve mu_r sq_r mu_u sq_u negll fs e)
  = record_history C (extended C s new) fs pve e.
Proof.
  unfold extended, record_history. simpl.
  rewrite sweeps_app, posteriors_app, !fmap_app. simpl.
  by rewrite !app_assoc.
Qed.

(** The loop appends to the lists of [self] when [save_history] is set and
    leaves [self] alone when it is not; every pass has one posterior map
    and one sweep. *)
Lemma for_loop_self C ig K beta ab tol range st w st' w' :
  for_loop C ig K beta ab tol range st w = (Ok st', w') ->
  exists new,
    calls w' = calls w ++ new /\
    length (sweeps new) = length (iterations new) /\
    length (posteriors new) = length (iterations new) /\
    self w' = if save_history (self w) then extended C (self w) new
              else self w.
Proof.
  intros H.
  apply (for_loop_rule C
           (fun _ _ _ w2 =>
              exists new,
                calls w2 = calls w ++ new /\
                length (sweeps new) = length (iterations new) /\
                length (posteriors new) = length (iterations new) /\
                self w2 = if save_history (self w)
                          then extended C (self w) new else self w)) in H.
  - by destruct H as (_ & _ & _ & _ & H & _).
  - exists []. rewrite app_nil_r, extended_nil. by destruct (save_history _).
  - intros done i rest st1 w1 st2 brk w2 _ (new & Hc & Hn1 & Hn2 & Hs) Hb.
    body_facts Hb.
    exists (new ++ pass_events ig K beta i st1 PLN pve mu_r sq_r mu_u sq_u
                     negll fs e).
    rewrite Hcalls, Hc, <- app_assoc. split; [done|].
    rewrite sweeps_app, posteriors_app, iterations_app, !length_app, Hn1, Hn2.
    do 2 (split; [done|]).
    rewrite Hself, Hs. destruct (save_history (self w)) eqn:E.
    + cbn [save_history extended]. rewrite E. by rewrite extended_pass.
    + by rewrite E.
Qed.

(** ** The result of [classify] *)

Lemma drop_first_channel_channels a b :
  Xp.drop_first_channel a = Ok b -> Xp.channels b = Xp.channels a - 1.
Proof.
  unfold Xp.drop_first_channel, Xp.channels.
  destruct (reverse (shape a)) as [|k s]; [discriminate|].
  intros [= <-]. simpl. rewrite reverse_app, reverse_involutive. simpl. lia.
Qed.

(** [PVE] and [final_segmentation] after the loop are those of its last
    pass; before any pass they are unbound and [empty_like]. *)
Lemma for_loop_last C ig K beta ab tol range st w st' w' :
  for_loop C ig K beta ab tol range st w = (Ok st', w') ->
  exists new,
    calls w' = calls w ++ new /\
    length (sweeps new) = length (posteriors new) /\
    PVE st' = from_option Some (PVE st) (last (posteriors new)) /\
    final_segmentation st' =
      from_option Labels (final_segmentation st) (last (sweeps new).*1).
Proof.
  intros H.
  apply (for_loop_rule C
           (fun _ _ st2 w2 =>
              exists new,
                calls w2 = calls w ++ new /\
                length (sweeps new) = length (posteriors new) /\
                PVE st2 = from_option Some (PVE st) (last (posteriors new)) /\
                final_segmentation st2 =
                  from_option Labels (final_segmentation st)
                    (last (sweeps new).*1))) in H.
  - by destruct H as (_ & _ & _ & _ & H & _).
  - exists []. by rewrite app_nil_r.
  - intros done i rest st1 w1 st2 brk w2 _ (new & Hc & Hn & _) Hb.
    body_facts Hb.
    exists (new ++ pass_events ig K beta i st1 PLN pve mu_r sq_r mu_u sq_u
                     negll fs e).
    rewrite Hcalls, Hc, <- app_assoc. split; [done|].
    rewrite posteriors_app, sweeps_app, fmap_app, !length_app, Hn. simpl.
    by rewrite !last_snoc.
Qed.

(** ** The working volume *)

Lemma rescale_div_sub a lo m :
  Xp.div_scalar (Xp.sub_scalar a lo) m = Spec.rescale a lo m.
Proof.
  unfold Xp.div_scalar, Xp.sub_scalar, Spec.rescale. simpl.
  by rewrite <- list_fmap_compose.
Qed.

(** ** The store *)

Lemma heap_stable_bind {A B} (m : M A) (k : A -> M B) :
  heap_stable m -> (forall a, heap_stable (k a)) -> heap_stable (bind m k).
Proof.
  intros Hm Hk w. unfold bind. specialize (Hm w).
  destruct (m w) as [[a|e] w1]; simpl in *; [|done].
  by rewrite Hk.
Qed.

Lemma heap_kept_bind {A B} (m : M A) (k : A -> M B) :
  heap_kept m -> (forall a, heap_kept (k a)) -> heap_kept (bind m k).
Proof.
  intros Hm Hk w l b Hl. unfold bind. specialize (Hm w l b Hl).
  destruct (m w) as [[a|e] w1]; simpl in *; [|done].
  by apply Hk.
Qed.

Lemma heap_stable_kept {A} (m : M A) : heap_stable m -> heap_kept m.
Proof. intros H w l b Hl. by rewrite H. Qed.

Lemma heap_stable_ret {A} (a : A) : heap_stable (ret a).
Proof. done. Qed.

Lemma heap_stable_lift {A} (r : result A) : heap_stable (lift r).
Proof. done. Qed.

Lemma heap_stable_call {A} (ev : result A -> event) r : heap_stable (call ev r).
Proof. intros w. unfold call, bind, record, lift. simpl. done. Qed.

Lemma heap_stable_save C fs pve e : heap_stable (save C fs pve e).
Proof.
  intros w. unfold save, bind, get_self, set_self, ret. simpl.
  by destruct (save_history (self w)).
Qed.

Lemma heap_stable_record e : heap_stable (record e).
Proof. done. Qed.

Lemma heap_stable_print line : heap_stable (print line).
Proof. done. Qed.

Lemma heap_stable_get_self : heap_stable get_self.
Proof. done. Qed.

Create HintDb heap.

#[local] Hint Resolve heap_stable_ret heap_stable_lift heap_stable_call
  heap_stable_save heap_stable_record heap_stable_print heap_stable_get_self
  : heap.

(** Goes through a sequence of steps, each of which leaves the store. *)
Ltac heap_steps :=
  repeat first
    [ apply heap_stable_bind;
      [| let x := fresh in
         intros x;
         lazymatch type of x with
         | (_ * _)%type => destruct x as [? ?]
         | _ => idtac
         end ]
    | match goal with
      | |- heap_stable (if ?b then _ else _) => destruct b
      end
    | solve [auto with heap] ].

Lemma heap_stable_body C ig K beta ab tol i st :
  heap_stable (body C ig K beta ab tol i st).
Proof. unfold body. heap_steps. Qed.

Lemma heap_stable_for_loop C ig K beta ab tol range st :
  heap_stable (for_loop C ig K beta ab tol range st).
Proof.
  revert st. induction range as [|i range IH]; intros st; simpl; [done|].
  apply heap_stable_bind; [apply heap_stable_body|].
  intros [st' []]; [done | apply IH].
Qed.

(** [normalize] changes no array: the division in place is on the array
    the subtraction has just made. *)
Lemma heap_kept_normalize image : heap_kept (normalize image).
Proof.
  intros w l b Hl. unfold normalize, bind, read, lift, alloc, write, ret.
  destruct (heap w !! image) as [a|] eqn:Ha; simpl; [|done].
  destruct (Xp.amax (data a)) as [hi|]; simpl; [|done].
  destruct (1 <? hi)%float; simpl; [|done].
  assert (fresh (dom (heap w)) <> l) as Hne.
  { intros <-. apply (is_fresh (dom (heap w))). apply elem_of_dom. eauto. }
  destruct (Xp.amin (data a)) as [lo|]; simpl; [|done].
  rewrite lookup_insert_eq. simpl.
  destruct (Xp.amax _) as [m|]; simpl.
  - by rewrite !lookup_insert_ne.
  - by rewrite lookup_insert_ne.
Qed.

Lemma heap_stable_read l : heap_stable (read l).
Proof. intros w. unfold read. by destruct (heap w !! l). Qed.

Lemma heap_kept_prepare C image nclasses : heap_kept (prepare C image nclasses).
Proof.
  unfold prepare.
  apply heap_kept_bind; [apply heap_kept_normalize | intros image'].
  apply heap_stable_kept.
  apply heap_stable_bind; [apply heap_stable_read | intros img].
  heap_steps.
Qed.

Lemma heap_kept_classify C image nclasses beta tolerance max_iter :
  heap_kept (classify C image nclasses beta tolerance max_iter).
Proof.
  unfold classify, classify_loop.
  apply heap_kept_bind.
  - apply heap_kept_bind; [apply heap_kept_prepare|].
    intros [[[[img ig] K] s0] st]. apply heap_stable_kept.
    apply heap_stable_bind; [apply heap_stable_for_loop | done].
  - intros [s0 st]. apply heap_stable_kept.
    apply heap_stable_bind; [|done].
    destruct (PVE st); done.
Qed.

(** ** The volume each step is given *)

Lemma volumes_app l1 l2 : volumes (l1 ++ l2) = volumes l1 ++ volumes l2.
Proof. apply omap_app. Qed.

(** Every pass gives the same volume to its posterior, re-estimation and
    likelihood steps. *)
Lemma for_loop_volumes C ig K beta ab tol range st w st' w' :
  for_loop C ig K beta ab tol range st w = (Ok st', w') ->
  exists new,
    calls w' = calls w ++ new /\
    volumes new = replicate (3 * length (iterations new)) ig.
Proof.
  intros H.
  apply (for_loop_rule C
           (fun _ _ _ w2 =>
              exists new,
                calls w2 = calls w ++ new /\
                volumes new = replicate (3 * length (iterations new)) ig))
    in H.
  - by destruct H as (_ & _ & _ & _ & H & _).
  - exists []. by rewrite app_nil_r.
  - intros done i rest st1 w1 st2 brk w2 _ (new & Hc & Hv) Hb.
    body_facts Hb.
    exists (new ++ pass_events ig K beta i st1 PLN pve mu_r sq_r mu_u sq_u
                     negll fs e).
    rewrite Hcalls, Hc, <- app_assoc. split; [done|].
    rewrite volumes_app, iterations_app, length_app, Hv.
    by rewrite Nat.mul_add_distr_l, replicate_add.
Qed.

Lemma where_zero_inv a b c :
  Xp.where_zero a b = Ok c ->
  shape c = shape a /\
  length (data c) = length (data a) `min` length (data b) /\
  forall j y,
    data c !! j = Some y ->
    exists x n,
      data a !! j = Some x /\ data b !! j = Some n /\
      y = if (x =? 0)%float then n else x.
Proof.
  unfold Xp.where_zero. destruct (decide _); [|discriminate].
  intros [= <-]. simpl. split; [done|]. split; [apply length_zip_with|].
  intros j y Hy. apply lookup_zip_with_Some in Hy as (x & n & -> & Hx & Hn).
  eauto.
Qed.

(** ** The class parameters *)

Lemma likelihood_params_app l1 l2 :
  likelihood_params (l1 ++ l2) = likelihood_params l1 ++ likelihood_params l2.
Proof. apply omap_app. Qed.

Lemma posterior_params_app l1 l2 :
  posterior_params (l1 ++ l2) = posterior_params l1 ++ posterior_params l2.
Proof. apply omap_app. Qed.

Lemma updates_app l1 l2 : updates (l1 ++ l2) = updates l1 ++ updates l2.
Proof. apply omap_app. Qed.

(** The parameters of the loop: every likelihood step is given the
    re-estimate of its pass, sorted; the posterior step of the first pass is
    given the parameters the loop started with and that of each later pass
    those of the likelihood step before it. *)
Lemma for_loop_params C ig K beta ab tol range st w st' w' :
  for_loop C ig K beta ab tol range st w = (Ok st', w') ->
  exists new,
    calls w' = calls w ++ new /\
    initial_estimates new = [] /\
    segmentation_estimates new = [] /\
    Forall2 sorted_estimate (updates new) (likelihood_params new) /\
    posterior_params new =
      take (length (likelihood_params new))
        ((mu st, sigmasq st) :: likelihood_params new).
Proof.
  intros H.
  apply (for_loop_rule C
           (fun _ brk st2 w2 =>
              exists new,
                calls w2 = calls w ++ new /\
                initial_estimates new = [] /\
                segmentation_estimates new = [] /\
                Forall2 sorted_estimate (updates new) (likelihood_params new) /\
                posterior_params new =
                  take (length (likelihood_params new))
                    ((mu st, sigmasq st) :: likelihood_params new) /\
                (brk = false ->
                 ((mu st, sigmasq st) :: likelihood_params new)
                   !! length (likelihood_params new)
                 = Some (mu st2, sigmasq st2)))) in H.
  - destruct H as (_ & _ & _ & _ & (new & H1 & H2 & H3 & H4 & H5 & _) & _).
    eauto 10.
  - exists []. by rewrite app_nil_r.
  - intros done i rest st1 w1 st2 brk w2 _
      (new & Hc & Hi & Hg & Hs & Hp & Hlast) Hb.
    specialize (Hlast eq_refl). body_facts Hb.
    exists (new ++ pass_events ig K beta i st1 PLN pve mu_r sq_r mu_u sq_u
                     negll fs e).
    rewrite Hcalls, Hc, <- app_assoc. split; [done|].
    split. { unfold initial_estimates in *. by rewrite omap_app, Hi. }
    split. { unfold segmentation_estimates in *. by rewrite omap_app, Hg. }
    rewrite updates_app, likelihood_params_app, posterior_params_app.
    change (updates (pass_events _ _ _ _ _ _ _ _ _ _ _ _ _ _))
      with [(mu_r, sq_r)].
    change (likelihood_params (pass_events _ _ _ _ _ _ _ _ _ _ _ _ _ _))
      with [(mu_u, sq_u)].
    change (posterior_params (pass_events _ _ _ _ _ _ _ _ _ _ _ _ _ _))
      with [(mu st1, sigmasq st1)].
    set (lik := likelihood_params new) in *.
    split; [|split].
    + apply Forall2_app; [done|]. constructor; [|constructor].
      by apply argsort_sorted_with.
    + rewrite length_app. simpl. rewrite Nat.add_1_r.
      rewrite app_comm_cons.
      rewrite (take_S_r _ _ (mu st1, sigmasq st1)).
      * rewrite take_app_le by (simpl; lia). by rewrite Hp.
      * rewrite lookup_app_l by (simpl; lia). done.
    + intros ->. destruct Hnext as (_ & -> & ->).
      rewrite length_app. simpl. rewrite Nat.add_1_r. simpl.
      apply list_lookup_middle. done.
Qed.

Lemma sorted_with_ascending a s b t :
  sorted_with a s b t ->
  ascending b /\ (Forall (fun x => is_nan x = false) b -> ascending_leb b).
Proof.
  intros (p & _ & _ & _ & Hb). split; [done|].
  intros Hn. by apply ascending_leb_of.
Qed.

(** ** Calls that return *)

Lemma amax_returns l : l <> [] -> exists x, Xp.amax l = Ok x.
Proof. destruct l; [done|]. simpl. eauto. Qed.

Lemma amin_returns l : l <> [] -> exists x, Xp.amin l = Ok x.
Proof. destruct l; [done|]. simpl. eauto. Qed.

(** The stopping test returns at a pass where it is run, the history
    holding the seed and one entry per pass. *)
Lemma converged_returns tol es i :
  length es = i + 2 -> 3 <= i -> exists b, converged tol es i = Ok b.
Proof.
  intros Hl Hi. unfold converged.
  assert (es <> []) as Hne. { intros ->. simpl in Hl. lia. }
  destruct (amax_returns es Hne) as [hi ->].
  destruct (amin_returns es Hne) as [lo ->].
  simpl. rewrite (window_positions es i Hl Hi).
  assert (take 3 (drop (i - 3) es) <> []) as Hw.
  { intros H. apply (f_equal length) in H.
    rewrite length_take, length_drop in H. cbn [length] in H. lia. }
  destruct (amax_returns _ Hw) as [whi ->].
  destruct (amin_returns _ Hw) as [wlo ->].
  simpl. eauto.
Qed.

Lemma take_indices_argsort_returns a s :
  length a <= length s -> exists t, Xp.take_indices s (Xp.argsort a) = Ok t.
Proof.
  intros Hl. apply take_indices_total.
  apply Forall_forall. intros i Hi.
  rewrite (argsort_perm a) in Hi. apply elem_of_seq in Hi. lia.
Qed.

(** Runs the first step of a sequence: a step that returns by computation,
    and a step with a given outcome. *)
Ltac run_prim :=
  lazymatch goal with
  | |- context [bind ?m ?k ?w] =>
      rewrite (bind_run m k w _ _ eq_refl); cbv beta
  end.

Ltac run_with E :=
  lazymatch goal with
  | |- context [bind ?m ?k ?w] =>
      rewrite (bind_run m k w _ _ E); cbv beta
  end.

Ltac run_call E :=
  lazymatch goal with
  | |- context [bind (call ?ev ?r) ?k ?w] =>
      rewrite (bind_run (call ev r) k w _ _ (call_run ev r _ w E)); cbv beta
  end.

Section Returns.

Variable C : collaborators.
Hypothesis HC : well_behaved C.

(** A pass returns, its posterior map bound, the history one entry
    longer when stopping is allowed. *)
Lemma body_returns ig K beta ab tol i st w :
  (ab = true -> length (energy_sum st) = i + 1) ->
  exists st' brk w',
    body C ig K beta ab tol i st w = (Ok (st', brk), w') /\
    (ab = true -> length (energy_sum st') = i + 2) /\
    exists pve, PVE st' = Some pve /\ shape pve <> [].
Proof.
  intros Hlen. unfold body.
  run_prim.
  run_prim.
  set (w1 := World (heap w) (self w)
               (if verbose (self w)
                then stdout w ++ [progress_line i]
                else stdout w)
               (calls w ++ [EvIteration i])).
  lazymatch goal with
  | |- context [bind ?m ?k ?w0] =>
      rewrite (bind_run m k w0 tt w1) by (simpl; by destruct (verbose (self w)));
      cbv beta
  end.
  destruct (wb_nbh C HC (seg_init st) beta K) as [PLN E1].
  run_call E1.
  destruct (wb_prob C HC ig K (mu st) (sigmasq st) PLN) as (pve & E2 & Hpve).
  run_call E2.
  destruct (wb_update C HC ig pve (mu st) K) as (mu_r & sq_r & E3 & Hlr).
  run_call E3.
  rewrite argsort_take. run_prim.
  destruct (take_indices_argsort_returns mu_r sq_r Hlr) as [sq_u E5].
  rewrite E5. run_prim.
  destruct (wb_negll C HC ig (Xp.sorted_pairs mu_r).*2 sq_u K) as [negll E6].
  run_call E6.
  destruct (wb_icm C HC negll beta (seg_init st)) as [[fs e] E7].
  run_call E7.
  match goal with
  | |- context [bind (save C fs pve e) _ ?w0] =>
      destruct (save C fs pve e w0) as [[[]|] w2] eqn:E8;
      [| unfold save, bind, get_self, set_self, ret in E8; simpl in E8;
         destruct (save_history (self w)); discriminate]
  end.
  run_with E8.
  assert (ab = true ->
          length (if ab then energy_sum st ++ [float_of (energy_total C e)]
                  else energy_sum st) = i + 2) as Hlen'.
  { intros ->. rewrite length_app, Hlen by done. simpl. lia. }
  destruct (ab && (bool_decide (i mod 10 = 0) && bool_decide (i <> 0)))
    eqn:Eg.
  - apply andb_true_iff in Eg as [-> Eg].
    apply andb_true_iff in Eg as [Em E0].
    apply bool_decide_eq_true in Em, E0.
    assert (3 <= i) as Hi3.
    { destruct (decide (i < 3)) as [Hlt|]; [|lia].
      rewrite Nat.mod_small in Em by lia. done. }
    destruct (converged_returns tol _ i (Hlen' eq_refl) Hi3) as [b Eb].
    rewrite Eb. run_prim.
    destruct b; eexists _, _, _; (split; [reflexivity|]); simpl; eauto.
  - run_prim.
    eexists _, _, _; (split; [reflexivity|]); simpl; eauto.
Qed.

(** The loop returns; after at least one pass the posterior map is bound. *)
Lemma for_loop_returns ig K beta ab tol n a st w :
  (ab = true -> length (energy_sum st) = a + 1) ->
  exists st' w',
    for_loop C ig K beta ab tol (seq a n) st w = (Ok st', w') /\
    (1 <= n \/ (exists pve, PVE st = Some pve /\ shape pve <> []) ->
     exists pve, PVE st' = Some pve /\ shape pve <> []).
Proof.
  revert a st w. induction n as [|n IH]; intros a st w Hlen; simpl.
  - eexists _, _. split; [reflexivity|]. intros [|]; [lia | done].
  - destruct (body_returns ig K beta ab tol a st w Hlen)
      as (st1 & brk & w1 & E & Hlen1 & HP).
    run_with E. destruct brk.
    + eexists _, _. split; [reflexivity|]. done.
    + destruct (IH (S a) st1 w1) as (st' & w' & E' & HP').
      { intros Hab. rewrite Hlen1 by done. lia. }
      eexists _, _. split; [exact E'|]. intros _. apply HP'. by right.
Qed.

(** The steps before the loop return on a non-empty volume. *)
Lemma prepare_returns image nclasses w a :
  heap w !! image = Some a -> data a <> [] ->
  exists r w1, prepare C image nclasses w = (Ok r, w1) /\
               energy_sum r.2 = [1e-05%float].
Proof.
  intros Ha Hne.
  assert (exists image' w0,
             normalize image w = (Ok image', w0) /\
             exists img, heap w0 !! image' = Some img) as (image' & w0 & En & img & Himg).
  { unfold normalize. unfold read at 1. unfold bind at 1. rewrite Ha.
    destruct (amax_returns _ Hne) as [hi Ehi].
    rewrite Ehi; run_prim.
    destruct (1 <? hi)%float.
    - destruct (amin_returns _ Hne) as [lo Elo].
      rewrite Elo; run_prim.
      run_prim.
      unfold read at 1. unfold bind at 1. simpl. rewrite lookup_insert_eq.
      destruct (amax_returns ((fun x => x - lo)%float <$> data a)
                  ltac:(by destruct (data a))) as [m Em].
      simpl data; rewrite Em; run_prim.
      run_prim.
      eexists _, _. split; [reflexivity|]. simpl.
      rewrite lookup_insert_eq. eauto.
    - eexists _, _. split; [reflexivity|]. eauto. }
  unfold prepare.
  run_with En.
  lazymatch goal with
  | |- context [bind ?m ?k ?w] =>
      rewrite (bind_run m k w img w0) by (unfold read; by rewrite Himg);
      cbv beta
  end.
  destruct (wb_init C HC img (nclasses + 1)) as (mu_e & sg_e & E1 & Hl1).
  run_call E1.
  rewrite argsort_take. run_prim.
  destruct (take_indices_argsort_returns mu_e sg_e Hl1) as [sg0 E3].
  rewrite E3. run_prim.
  destruct (wb_negll C HC img (Xp.sorted_pairs mu_e).*2 (Xp.square sg0)
              (nclasses + 1)) as [nll E4].
  run_call E4.
  destruct (wb_ml C HC nll) as [s0 E5].
  run_call E5.
  destruct (wb_stats C HC img s0 (nclasses + 1)) as [[mu1 sg1] E6].
  run_call E6.
  destruct (wb_noise C HC (Xp.zeros_like_plus img 0.001%float) 10000 1
              "gaussian") as (zn & E7 & Hshape).
  run_call E7.
  unfold Xp.where_zero. rewrite decide_True by done.
  run_prim.
  eexists _, _. split; [reflexivity|]. done.
Qed.

(** A call returns when the collaborators do, the volume is not empty and
    the range of the loop is not: whatever [nclasses], [beta] and
    [tolerance] are. *)
Lemma classify_returns image nclasses beta tolerance max_iter w a :
  heap w !! image = Some a -> data a <> [] ->
  (1 <= default 100 max_iter)%Z ->
  exists r w', classify C image nclasses beta tolerance max_iter w = (Ok r, w').
Proof.
  intros Ha Hne Hm.
  destruct (prepare_returns image nclasses w a Ha Hne)
    as ([[[[img ig] K] s0] st0] & w1 & Ep & Hes).
  simpl in Hes.
  destruct (for_loop_returns ig K beta (allow_break max_iter tolerance)
              (default 1e-05%float tolerance)
              (Z.to_nat (default 100%Z max_iter)) 0 st0 w1)
    as (st & w2 & El & HP).
  { intros _. by rewrite Hes. }
  destruct HP as (pve & HP & Hshape); [left; lia|].
  assert (classify_loop C image nclasses beta tolerance max_iter w
          = (Ok (s0, st), w2)) as Ec.
  { unfold classify_loop. run_with Ep. unfold iterate. by run_with El. }
  unfold classify. run_with Ec.
  rewrite HP. unfold Xp.drop_first_channel.
  destruct (reverse (shape pve)) as [|k s] eqn:Er.
  { apply (f_equal reverse) in Er. rewrite reverse_involutive in Er. done. }
  run_prim. eauto.
Qed.

End Returns.

(** The passes of a loop over an empty range: none. *)
Lemma classify_without_passes C image nclasses beta tolerance (max_iter : Z)
    r w w1 :
  (max_iter <= 0)%Z ->
  prepare C image nclasses w = (Ok r, w1) ->
  classify C image nclasses beta tolerance (Some max_iter) w
  = (Err UnboundLocalError, w1).
Proof.
  intros Hm Ep. destruct r as [[[[img ig] K] s0] st0].
  pose proof Ep as Ep'. prepare_facts Ep'.
  assert (classify_loop C image nclasses beta tolerance (Some max_iter) w
          = (Ok (s0, st0), w1)) as Ec.
  { unfold classify_loop. run_with Ep. unfold iterate. simpl default.
    replace (Z.to_nat max_iter) with 0 by lia. reflexivity. }
  unfold classify. run_with Ec. by rewrite Hst0.
Qed.

Lemma stub_well_behaved energy : well_behaved (Sample.stub energy).
Proof.
  constructor; intros; simpl.
  - eexists _, _. split; [reflexivity | simpl; lia].
  - eauto.
  - eauto.
  - eexists. split; [reflexivity|]. simpl. intros H.
    by apply app_eq_nil in H as [_ ?].
  - eexists _, _. split; [reflexivity | simpl; lia].
  - eauto.
  - eauto.
  - eauto.
  - eauto.
Qed.

(** ** Verbosity *)

Lemma unobserving_bind {A B} (m : M A) (k : A -> M B) :
  unobserving m -> (forall a, unobserving (k a)) -> unobserving (bind m k).
Proof.
  intros Hm Hk w. unfold bind. rewrite Hm.
  destruct (m w) as [[a|e] w1]; simpl; [|done]. apply Hk.
Qed.

Lemma unobserving_ret {A} (a : A) : unobserving (ret a).
Proof. done. Qed.

Lemma unobserving_lift {A} (r : result A) : unobserving (lift r).
Proof. done. Qed.

Lemma unobserving_record e : unobserving (record e).
Proof. done. Qed.

Lemma unobserving_call {A} (ev : result A -> event) r : unobserving (call ev r).
Proof. intros w. unfold call, bind, record, lift. simpl. done. Qed.

Lemma unobserving_read l : unobserving (read l).
Proof. intros w. unfold read. simpl. by destruct (heap w !! l). Qed.

Lemma unobserving_alloc a : unobserving (alloc a).
Proof. done. Qed.

Lemma unobserving_write l a : unobserving (write l a).
Proof. done. Qed.

Lemma unobserving_raise {A} e : unobserving (@raise A e).
Proof. done. Qed.

Lemma unobserving_save C fs pve e : unobserving (save C fs pve e).
Proof.
  intros [h [sh sg pv en es vb] o c].
  unfold save, bind, get_self, set_self, ret, silenced. simpl.
  by destruct sh.
Qed.

(** The progress line: printed or not, the rest runs alike. *)
Lemma unobserving_progress {A} (line : string) (k : M A) :
  unobserving k ->
  unobserving
    (bind get_self
       (fun s => bind (if verbose s then print line else ret tt)
                   (fun _ => k))).
Proof.
  intros Hk w. unfold bind, get_self. simpl.
  destruct (verbose (self w)); simpl.
  - rewrite <- (Hk (World (heap w) (self w) (stdout w ++ [line]) (calls w))).
    done.
  - rewrite <- (Hk w). by destruct w.
Qed.

Create HintDb quiet.

#[local] Hint Resolve unobserving_ret unobserving_lift unobserving_record
  unobserving_call unobserving_read unobserving_alloc unobserving_write
  unobserving_raise unobserving_save : quiet.

(** Goes through a sequence of steps none of which depends on [verbose]. *)
Ltac quiet_steps :=
  repeat first
    [ solve [auto with quiet]
    | apply unobserving_bind;
      [| let x := fresh in
         intros x;
         lazymatch type of x with
         | (_ * _)%type => destruct x as [? ?]
         | _ => idtac
         end ]
    | match goal with
      | |- unobserving (if ?b then _ else _) => destruct b
      end ].

Lemma unobserving_body C ig K beta ab tol i st :
  unobserving (body C ig K beta ab tol i st).
Proof.
  unfold body. apply unobserving_bind; [auto with quiet | intros _].
  apply unobserving_progress. quiet_steps.
Qed.

Lemma unobserving_for_loop C ig K beta ab tol range st :
  unobserving (for_loop C ig K beta ab tol range st).
Proof.
  revert st. induction range as [|i range IH]; intros st; simpl; [done|].
  apply unobserving_bind; [apply unobserving_body|].
  intros [st' []]; [done | apply IH].
Qed.

Lemma unobserving_classify C image nclasses beta tolerance max_iter :
  unobserving (classify C image nclasses beta tolerance max_iter).
Proof.
  unfold classify. apply unobserving_bind.
  - unfold classify_loop. apply unobserving_bind.
    + unfold prepare. quiet_steps.
    + intros [[[[img ig] K] s0] st].
      apply unobserving_bind; [apply unobserving_for_loop | auto with quiet].
  - intros [s0 st].
    apply unobserving_bind; [destruct (PVE st) |]; auto with quiet.
Qed.

(** What the loop prints: one line per pass when [verbose] is set. *)
Lemma for_loop_stdout C ig K beta ab tol range st w st' w' :
  for_loop C ig K beta ab tol range st w = (Ok st', w') ->
  exists new,
    calls w' = calls w ++ new /\
    verbose (self w') = verbose (self w) /\
    stdout w' =
      stdout w ++
      (if verbose (self w) then progress_line <$> iterations new else []).
Proof.
  intros H.
  apply (for_loop_rule C
           (fun _ _ _ w2 =>
              exists new,
                calls w2 = calls w ++ new /\
                verbose (self w2) = verbose (self w) /\
                stdout w2 =
                  stdout w ++
                  (if verbose (self w) then progress_line <$> iterations new
                   else []))) in H.
  - by destruct H as (_ & _ & _ & _ & H & _).
  - exists []. rewrite !app_nil_r. by destruct (verbose _); rewrite ?app_nil_r.
  - intros done i rest st1 w1 st2 brk w2 _ (new & Hc & Hv & Ho) Hb.
    body_facts Hb.
    exists (new ++ pass_events ig K beta i st1 PLN pve mu_r sq_r mu_u sq_u
                     negll fs e).
    rewrite Hcalls, Hc, <- app_assoc. split; [done|]. split.
    + rewrite Hself. by destruct (save_history (self w1)).
    + rewrite Hout, Hv, Ho, iterations_app.
      destruct (verbose (self w)); [|done].
      by rewrite fmap_app, <- app_assoc.
Qed.

(** ** Termination *)

Lemma seq_prefix n (done rest : list nat) :
  seq 0 n = done ++ rest -> done = seq 0 (length done) /\ length done <= n.
Proof.
  intros Hr.
  assert (length done + length rest = n) as Hn.
  { apply (f_equal length) in Hr. rewrite length_seq, length_app in Hr. lia. }
  split; [|lia].
  apply (f_equal (take (length done))) in Hr.
  rewrite take_app_length, take_seq in Hr.
  rewrite <- Hr at 1. f_equal. lia.
Qed.

(** ** History recording *)

Lemma unrecording_bind {A B} (m : M A) (k : A -> M B) :
  unrecording m -> (forall a, unrecording (k a)) -> unrecording (bind m k).
Proof.
  intros Hm Hk w. unfold bind. rewrite Hm.
  destruct (m w) as [[a|e] w1]; simpl; [|done]. apply Hk.
Qed.

Lemma unrecording_ret {A} (a : A) : unrecording (ret a).
Proof. done. Qed.

Lemma unrecording_lift {A} (r : result A) : unrecording (lift r).
Proof. done. Qed.

Lemma unrecording_record e : unrecording (record e).
Proof. done. Qed.

Lemma unrecording_call {A} (ev : result A -> event) r : unrecording (call ev r).
Proof. intros w. unfold call, bind, record, lift. simpl. done. Qed.

Lemma unrecording_read l : unrecording (read l).
Proof. intros w. unfold read. simpl. by destruct (heap w !! l). Qed.

Lemma unrecording_alloc a : unrecording (alloc a).
Proof. done. Qed.

Lemma unrecording_write l a : unrecording (write l a).
Proof. done. Qed.

Lemma unrecording_raise {A} e : unrecording (@raise A e).
Proof. done. Qed.

Lemma unrecording_save C fs pve e : unrecording (save C fs pve e).
Proof.
  intros [h [sh sg pv en es vb] o c].
  unfold save, bind, get_self, set_self, ret, without_history. simpl.
  by destruct sh.
Qed.

(** The progress line depends on [verbose] alone. *)
Lemma unrecording_progress {A} (line : string) (k : M A) :
  unrecording k ->
  unrecording
    (bind get_self
       (fun s => bind (if verbose s then print line else ret tt)
                   (fun _ => k))).
Proof.
  intros Hk w. unfold bind, get_self. simpl.
  destruct (verbose (self w)); simpl.
  - rewrite <- (Hk (World (heap w) (self w) (stdout w ++ [line]) (calls w))).
    done.
  - rewrite <- (Hk w). done.
Qed.

Create HintDb history.

#[local] Hint Resolve unrecording_ret unrecording_lift unrecording_record
  unrecording_call unrecording_read unrecording_alloc unrecording_write
  unrecording_raise unrecording_save : history.

(** Goes through a sequence of steps none of which reads the history. *)
Ltac history_steps :=
  repeat first
    [ solve [auto with history]
    | apply unrecording_bind;
      [| let x := fresh in
         intros x;
         lazymatch type of x with
         | (_ * _)%type => destruct x as [? ?]
         | _ => idtac
         end ]
    | match goal with
      | |- unrecording (if ?b then _ else _) => destruct b
      end ].

Lemma unrecording_body C ig K beta ab tol i st :
  unrecording (body C ig K beta ab tol i st).
Proof.
  unfold body. apply unrecording_bind; [auto with history | intros _].
  apply unrecording_progress. history_steps.
Qed.

Lemma unrecording_for_loop C ig K beta ab tol range st :
  unrecording (for_loop C ig K beta ab tol range st).
Proof.
  revert st. induction range as [|i range IH]; intros st; simpl; [done|].
  apply unrecording_bind; [apply unrecording_body|].
  intros [st' []]; [done | apply IH].
Qed.

Lemma unrecording_classify C image nclasses beta tolerance max_iter :
  unrecording (classify C image nclasses beta tolerance max_iter).
Proof.
  unfold classify. apply unrecording_bind.
  - unfold classify_loop. apply unrecording_bind.
    + unfold prepare. history_steps.
    + intros [[[[img ig] K] s0] st].
      apply unrecording_bind; [apply unrecording_for_loop | auto with history].
  - intros [s0 st].
    apply unrecording_bind; [destruct (PVE st) |]; auto with history.
Qed.

(** ** The tolerance before the first test *)

Lemma guard_before_10 (ab : bool) (i : nat) :
  i < 10 ->
  ab && (bool_decide (i mod 10 = 0) && bool_decide (i <> 0)) = false.
Proof.
  intros Hi. destruct ab; [|done]. cbn [andb].
  destruct (bool_decide (i mod 10 = 0)) eqn:E1; [|done].
  destruct (bool_decide (i <> 0)) eqn:E2; [|done].
  apply bool_decide_eq_true in E1, E2.
  rewrite Nat.mod_small in E1 by done. done.
Qed.

(** A pass before index 10 does not read the tolerance. *)
Lemma body_tolerance C ig K beta ab t1 t2 i st :
  i < 10 ->
  body C ig K beta ab t1 i st = body C ig K beta ab t2 i st.
Proof.
  intros Hi. unfold body. by rewrite (guard_before_10 ab i Hi).
Qed.

Lemma for_loop_tolerance C ig K beta ab t1 t2 range st w :
  Forall (fun i => i < 10) range ->
  for_loop C ig K beta ab t1 range st w = for_loop C ig K beta ab t2 range st w.
Proof.
  intros Hr. revert st w.
  induction Hr as [|i range Hi _ IH]; intros st w; simpl; [done|].
  unfold bind. rewrite (body_tolerance C ig K beta ab t1 t2 i st Hi).
  destruct (body C ig K beta ab t2 i st w) as [[[st' []]|e] w1]; [done| |done].
  apply IH.
Qed.

(** ** Volumes at the edge: empty, or with a NaN voxel *)

Lemma leb_nan_l a b : is_nan a = true -> (a <=? b)%float = false.
Proof.
  unfold is_nan. rewrite leb_spec, FloatAxioms.eqb_spec. unfold SFleb, SFeqb.
  destruct (Prim2SF a) as [s|s| |s m e], (Prim2SF b);
    simpl; try reflexivity; try discriminate.
  all: try (destruct s; simpl; discriminate).
  all: rewrite ?Z.compare_refl, ?Pos.compare_cont_refl;
    destruct s; simpl; discriminate.
Qed.

Lemma maximum_nan_l a b : is_nan a = true -> Xp.maximum a b = a.
Proof. unfold Xp.maximum. intros ->. by rewrite orb_true_r. Qed.

Lemma maximum_nan_r a b :
  is_nan b = true -> is_nan (Xp.maximum a b) = true.
Proof.
  intros Hb. unfold Xp.maximum. rewrite (leb_nan_l b a Hb). simpl.
  by destruct (is_nan a) eqn:Ha.
Qed.

Lemma fold_maximum_nan_acc r a :
  is_nan a = true -> fold_left Xp.maximum r a = a.
Proof.
  revert a. induction r as [|x r IH]; intros a Ha; simpl; [done|].
  rewrite maximum_nan_l by done. by apply IH.
Qed.

Lemma fold_maximum_nan r a :
  Exists (fun x => is_nan x = true) r ->
  is_nan (fold_left Xp.maximum r a) = true.
Proof.
  intros Hr. revert a. induction Hr as [x r Hx|x r _ IH]; intros a; simpl.
  - rewrite fold_maximum_nan_acc; by apply maximum_nan_r.
  - apply IH.
Qed.

(** The maximum of an array with a NaN entry is NaN. *)
Lemma amax_nan l :
  Exists (fun x => is_nan x = true) l ->
  exists hi, Xp.amax l = Ok hi /\ is_nan hi = true.
Proof.
  intros Hl. destruct l as [|x r]; [by apply Exists_nil in Hl|].
  simpl. eexists. split; [reflexivity|].
  apply Exists_cons in Hl as [Hx|Hr].
  - by rewrite fold_maximum_nan_acc.
  - by apply fold_maximum_nan.
Qed.

(** ** What each step is handed *)

Lemma neighbourhood_inputs_app l1 l2 :
  neighbourhood_inputs (l1 ++ l2)
  = neighbourhood_inputs l1 ++ neighbourhood_inputs l2.
Proof. apply omap_app. Qed.

Lemma sweep_inputs_app l1 l2 :
  sweep_inputs (l1 ++ l2) = sweep_inputs l1 ++ sweep_inputs l2.
Proof. apply omap_app. Qed.

Lemma posterior_priors_app l1 l2 :
  posterior_priors (l1 ++ l2) = posterior_priors l1 ++ posterior_priors l2.
Proof. apply omap_app. Qed.

Lemma update_inputs_app l1 l2 :
  update_inputs (l1 ++ l2) = update_inputs l1 ++ update_inputs l2.
Proof. apply omap_app. Qed.

Lemma priors_app l1 l2 : priors (l1 ++ l2) = priors l1 ++ priors l2.
Proof. apply omap_app. Qed.

Lemma ml_inputs_app l1 l2 :
  ml_inputs (l1 ++ l2) = ml_inputs l1 ++ ml_inputs l2.
Proof. apply omap_app. Qed.

Lemma ml_outputs_app l1 l2 :
  ml_segmentations (l1 ++ l2) = ml_segmentations l1 ++ ml_segmentations l2.
Proof. apply omap_app. Qed.

Lemma likelihoods_app l1 l2 :
  likelihoods (l1 ++ l2) = likelihoods l1 ++ likelihoods l2.
Proof. apply omap_app. Qed.

(** Each pass hands its results on: the prior to the posterior step, the
    posterior map to the re-estimation, the likelihood to the sweep; and
    the sweep's segmentation to the next pass. *)
Lemma for_loop_handoff C ig K beta ab tol range st w st' w' :
  for_loop C ig K beta ab tol range st w = (Ok st', w') ->
  exists new,
    calls w' = calls w ++ new /\
    neighbourhood_inputs new =
      take (length (sweeps new)) (seg_init st :: (sweeps new).*1) /\
    (sweep_inputs new).*2 = neighbourhood_inputs new /\
    (sweep_inputs new).*1 = likelihoods new /\
    posterior_priors new = priors new /\
    (update_inputs new).*1 = posteriors new /\
    (update_inputs new).*2 = (posterior_params new).*1 /\
    ml_inputs new = [] /\ ml_segmentations new = [].
Proof.
  intros H.
  apply (for_loop_rule C
           (fun _ brk st2 w2 =>
              exists new,
                calls w2 = calls w ++ new /\
                neighbourhood_inputs new =
                  take (length (sweeps new)) (seg_init st :: (sweeps new).*1) /\
                (sweep_inputs new).*2 = neighbourhood_inputs new /\
                (sweep_inputs new).*1 = likelihoods new /\
                posterior_priors new = priors new /\
                (update_inputs new).*1 = posteriors new /\
                (update_inputs new).*2 = (posterior_params new).*1 /\
                (ml_inputs new = [] /\ ml_segmentations new = []) /\
                (brk = false ->
                 (seg_init st :: (sweeps new).*1) !! length (sweeps new)
                 = Some (seg_init st2)))) in H.
  - destruct H as (done & brk & rest & _ & (new & Hall) & _).
    exists new. tauto.
  - exists []. by rewrite app_nil_r.
  - intros done i rest st1 w1 st2 brk w2 _
      (new & Hc & Hn & Hs & Hl & Hp & Hu1 & Hu2 & [Hm1 Hm2] & Hlast) Hb.
    specialize (Hlast eq_refl). body_facts Hb.
    exists (new ++ pass_events ig K beta i st1 PLN pve mu_r sq_r mu_u sq_u
                     negll fs e).
    rewrite Hcalls, Hc, <- app_assoc. split; [done|].
    rewrite neighbourhood_inputs_app, sweep_inputs_app, posterior_priors_app,
      update_inputs_app, priors_app, likelihoods_app, posteriors_app,
      posterior_params_app, sweeps_app, ml_inputs_app, ml_outputs_app,
      !fmap_app, length_app, Hm1, Hm2.
    change (neighbourhood_inputs (pass_events _ _ _ _ _ _ _ _ _ _ _ _ _ _))
      with [seg_init st1].
    change (sweep_inputs (pass_events _ _ _ _ _ _ _ _ _ _ _ _ _ _))
      with [(negll, seg_init st1)].
    change (posterior_priors (pass_events _ _ _ _ _ _ _ _ _ _ _ _ _ _))
      with [PLN].
    change (update_inputs (pass_events _ _ _ _ _ _ _ _ _ _ _ _ _ _))
      with [(pve, mu st1)].
    change (priors (pass_events _ _ _ _ _ _ _ _ _ _ _ _ _ _)) with [PLN].
    change (likelihoods (pass_events _ _ _ _ _ _ _ _ _ _ _ _ _ _))
      with [negll].
    change (posteriors (pass_events _ _ _ _ _ _ _ _ _ _ _ _ _ _)) with [pve].
    change (posterior_params (pass_events _ _ _ _ _ _ _ _ _ _ _ _ _ _))
      with [(mu st1, sigmasq st1)].
    change (sweeps (pass_events _ _ _ _ _ _ _ _ _ _ _ _ _ _)) with [(fs, e)].
    cbn [fmap list_fmap fst snd length].
    rewrite Hs, Hl, Hp, Hu1, Hu2, Nat.add_1_r.
    assert (length (sweeps new).*1 = length (sweeps new)) as Hlen
      by apply length_fmap.
    split.
    { rewrite app_comm_cons.
      rewrite (take_S_r _ _ (seg_init st1)).
      - rewrite take_app_le by (simpl; lia). by rewrite Hn.
      - rewrite lookup_app_l by (simpl; lia). done. }
    do 6 (split; [done|]).
    intros ->. destruct Hnext as (-> & _).
    rewrite app_comm_cons, <- Hlen.
    change (S (length (sweeps new).*1))
      with (length (seg_init st :: (sweeps new).*1)).
    apply list_lookup_middle. done.
Qed.

(** ** NaN in the stopping test *)

Lemma is_nan_SF a : is_nan a = true <-> Prim2SF a = S754_nan.
Proof.
  unfold is_nan. rewrite FloatAxioms.eqb_spec. unfold SFeqb.
  destruct (Prim2SF a) as [s|s| |s m e]; simpl.
  - split; discriminate.
  - split; [|discriminate]. destruct s; simpl; discriminate.
  - split; reflexivity.
  - rewrite Z.compare_refl, Pos.compare_cont_refl.
    split; [|discriminate]. destruct s; simpl; discriminate.
Qed.

Lemma sub_nan_l a b : is_nan a = true -> is_nan (a - b)%float = true.
Proof. rewrite !is_nan_SF, sub_spec. by intros ->. Qed.

Lemma mul_nan_l a b : is_nan a = true -> is_nan (a * b)%float = true.
Proof. rewrite !is_nan_SF, mul_spec. by intros ->. Qed.

Lemma mul_nan_r a b : is_nan b = true -> is_nan (a * b)%float = true.
Proof.
  rewrite !is_nan_SF, mul_spec. intros ->.
  unfold SF64mul, SFmul. by destruct (Prim2SF a).
Qed.

(** The test that returns is false when the tolerance or an entry of the
    history is NaN: the threshold is NaN then, and [<] is false of NaN. *)
Lemma converged_nan tol es i b :
  converged tol es i = Ok b ->
  is_nan tol = true \/ Exists (fun x => is_nan x = true) es ->
  b = false.
Proof.
  intros H Hnan.
  apply converged_ok in H as (hi & lo & whi & wlo & Hhi & _ & _ & _ & ->).
  apply ltb_nan_r. destruct Hnan as [Ht|He].
  - by apply mul_nan_l.
  - apply mul_nan_r, sub_nan_l.
    apply amax_nan in He as (hi' & Hhi' & Hn). congruence.
Qed.

(** The loop that stopped early has no NaN in its history and no NaN
    tolerance. *)
Lemma for_loop_nan C ig K beta ab tol range st w st' w' :
  for_loop C ig K beta ab tol range st w = (Ok st', w') ->
  is_nan tol = true \/ Exists (fun x => is_nan x = true) (energy_sum st') ->
  iterations (calls w') = iterations (calls w) ++ range.
Proof.
  intros H Hnan.
  apply (for_loop_rule C
           (fun done brk st2 w2 =>
              iterations (calls w2) = iterations (calls w) ++ done /\
              (brk = true ->
               is_nan tol = false /\
               ~ Exists (fun x => is_nan x = true) (energy_sum st2)))) in H.
  - destruct H as (done & brk & rest & Hr & [Hi Hb] & Hrest).
    destruct brk.
    + destruct (Hb eq_refl) as [Ht He].
      destruct Hnan as [Hnan|Hnan]; [congruence | done].
    + rewrite (Hrest eq_refl), app_nil_r in Hr. by rewrite Hr.
  - split; [by rewrite app_nil_r | discriminate].
  - intros done i rest st1 w1 st2 brk w2 _ [Hi _] Hb.
    body_facts Hb. split.
    + rewrite Hcalls, iterations_app, Hi, <- app_assoc. reflexivity.
    + intros ->. apply stopped_only_by_test in Htest as (_ & _ & _ & _ & Ht).
      split.
      * destruct (is_nan tol) eqn:E; [|done].
        by apply converged_nan in Ht; [|left].
      * intros He. by apply converged_nan in Ht; [|right].
Qed.

(** ** The history lists, whatever the outcome *)

Lemma in_step_refl s : in_step s s.
Proof.
  do 2 (split; [done|]). exists [], [], [], [].
  by rewrite !app_nil_r.
Qed.

Lemma in_step_trans s1 s2 s3 : in_step s1 s2 -> in_step s2 s3 -> in_step s1 s3.
Proof.
  intros (Hh & Hv & a & b & c & d & Ha & Hb & Hc & Hd & L1 & L2 & L3 & Hoff)
         (Hh' & Hv' & a' & b' & c' & d' & Ha' & Hb' & Hc' & Hd' & L1' & L2' &
          L3' & Hoff').
  split; [congruence|]. split; [congruence|].
  exists (a ++ a'), (b ++ b'), (c ++ c'), (d ++ d').
  rewrite Ha', Hb', Hc', Hd', Ha, Hb, Hc, Hd, <- !app_assoc, !length_app.
  do 4 (split; [done|]). do 3 (split; [lia|]).
  intros Hs. rewrite Hoff by done. rewrite Hoff' by congruence. done.
Qed.

Lemma in_step_record_history C s fs pve e :
  save_history s = true -> in_step s (record_history C s fs pve e).
Proof.
  intros Hs. do 2 (split; [done|]).
  exists [fs], [pve], [e], [energy_total C e]. simpl.
  do 7 (split; [done|]). congruence.
Qed.

Lemma keeps_in_step_bind {A B} (m : M A) (k : A -> M B) :
  keeps_in_step m -> (forall a, keeps_in_step (k a)) ->
  keeps_in_step (bind m k).
Proof.
  intros Hm Hk w. unfold bind. specialize (Hm w).
  destruct (m w) as [[a|e] w1]; simpl in *; [|done].
  eapply in_step_trans; [exact Hm | apply Hk].
Qed.

(** A computation that leaves [self] alone keeps its lists in step. *)
Lemma keeps_in_step_same {A} (m : M A) :
  (forall w, self (m w).2 = self w) -> keeps_in_step m.
Proof. intros H w. rewrite H. apply in_step_refl. Qed.

Lemma keeps_in_step_ret {A} (a : A) : keeps_in_step (ret a).
Proof. by apply keeps_in_step_same. Qed.

Lemma keeps_in_step_lift {A} (r : result A) : keeps_in_step (lift r).
Proof. by apply keeps_in_step_same. Qed.

Lemma keeps_in_step_record e : keeps_in_step (record e).
Proof. by apply keeps_in_step_same. Qed.

Lemma keeps_in_step_print line : keeps_in_step (print line).
Proof. by apply keeps_in_step_same. Qed.

Lemma keeps_in_step_get_self : keeps_in_step get_self.
Proof. by apply keeps_in_step_same. Qed.

Lemma keeps_in_step_call {A} (ev : result A -> event) r :
  keeps_in_step (call ev r).
Proof. by apply keeps_in_step_same. Qed.

Lemma keeps_in_step_read l : keeps_in_step (read l).
Proof.
  apply keeps_in_step_same. intros w. unfold read.
  by destruct (heap w !! l).
Qed.

Lemma keeps_in_step_alloc a : keeps_in_step (alloc a).
Proof. by apply keeps_in_step_same. Qed.

Lemma keeps_in_step_write l a : keeps_in_step (write l a).
Proof. by apply keeps_in_step_same. Qed.

Lemma keeps_in_step_save C fs pve e : keeps_in_step (save C fs pve e).
Proof.
  intros w. unfold save, bind, get_self, set_self, ret. simpl.
  destruct (save_history (self w)) eqn:E; simpl.
  - by apply in_step_record_history.
  - apply in_step_refl.
Qed.

Create HintDb in_step.

#[local] Hint Resolve keeps_in_step_ret keeps_in_step_lift
  keeps_in_step_record keeps_in_step_print keeps_in_step_get_self
  keeps_in_step_call keeps_in_step_read keeps_in_step_alloc
  keeps_in_step_write keeps_in_step_save : in_step.

(** Goes through a sequence of steps, each of which keeps the lists in
    step. *)
Ltac in_step_steps :=
  repeat first
    [ solve [auto with in_step]
    | apply keeps_in_step_bind;
      [| let x := fresh in
         intros x;
         lazymatch type of x with
         | (_ * _)%type => destruct x as [? ?]
         | _ => idtac
         end ]
    | match goal with
      | |- keeps_in_step (if ?b then _ else _) => destruct b
      end ].

Lemma keeps_in_step_body C ig K beta ab tol i st :
  keeps_in_step (body C ig K beta ab tol i st).
Proof. unfold body. in_step_steps. Qed.

Lemma keeps_in_step_for_loop C ig K beta ab tol range st :
  keeps_in_step (for_loop C ig K beta ab tol range st).
Proof.
  revert st. induction range as [|i range IH]; intros st; simpl.
  - apply keeps_in_step_ret.
  - apply keeps_in_step_bind; [apply keeps_in_step_body|].
    intros [st' []]; [apply keeps_in_step_ret | apply IH].
Qed.

Lemma keeps_in_step_classify C image nclasses beta tolerance max_iter :
  keeps_in_step (classify C image nclasses beta tolerance max_iter).
Proof.
  unfold classify. apply keeps_in_step_bind.
  - unfold classify_loop. apply keeps_in_step_bind.
    + unfold prepare, normalize. in_step_steps.
    + intros [[[[img ig] K] s0] st].
      apply keeps_in_step_bind;
        [apply keeps_in_step_for_loop | auto with in_step].
  - intros [s0 st].
    apply keeps_in_step_bind; [destruct (PVE st) |]; auto with in_step.
Qed.

(** ** A zero tolerance *)

(** No distance is below a threshold that is zero times something: the
    threshold is a zero or NaN, and an absolute value is below neither. *)
Lemma abs_not_below_zero_multiple t x y :
  (t =? 0)%float = true -> (abs x <? t * y)%float = false.
Proof.
  rewrite FloatAxioms.eqb_spec, ltb_spec, abs_spec, mul_spec.
  change (Prim2SF 0) with (S754_zero false).
  unfold SFeqb, SFltb, SF64mul, SFmul.
  destruct (Prim2SF t) as [s|s| |s m e]; simpl; try discriminate.
  - intros _.
    destruct (Prim2SF y) as [s'|s'| |s' m' e'], (Prim2SF x) as [sx|sx| |sx mx ex];
      reflexivity.
  - destruct s; discriminate.
  - destruct s; discriminate.
Qed.

Lemma converged_zero tol es i b :
  converged tol es i = Ok b -> (tol =? 0)%float = true -> b = false.
Proof.
  intros H Ht.
  apply converged_ok in H as (hi & lo & whi & wlo & _ & _ & _ & _ & ->).
  by apply abs_not_below_zero_multiple.
Qed.

(** A loop whose test can not hold runs its whole range. *)
Lemma for_loop_test_fails C ig K beta ab tol range st w st' w' :
  (forall es i b, converged tol es i = Ok b -> b = false) ->
  for_loop C ig K beta ab tol range st w = (Ok st', w') ->
  iterations (calls w') = iterations (calls w) ++ range.
Proof.
  intros Hnever H.
  apply (for_loop_rule C
           (fun done brk st2 w2 =>
              iterations (calls w2) = iterations (calls w) ++ done /\
              brk = false)) in H.
  - destruct H as (done & brk & rest & Hr & [Hi ->] & Hrest).
    rewrite (Hrest eq_refl), app_nil_r in Hr. by rewrite Hr.
  - split; [by rewrite app_nil_r | done].
  - intros done i rest st1 w1 st2 brk w2 _ [Hi _] Hb.
    body_facts Hb. split.
    + rewrite Hcalls, iterations_app, Hi, <- app_assoc. reflexivity.
    + destruct brk; [|done].
      apply stopped_only_by_test in Htest as (_ & _ & _ & _ & Ht).
      by apply Hnever in Ht.
Qed.

(** ** The entries an energy sum leaves out *)

Lemma above_neg_inf_iff x :
  (neg_infinity <? x)%float = true <->
  negb (is_nan x) && negb (x =? neg_infinity)%float = true.
Proof.
  unfold is_nan. rewrite ltb_spec, !FloatAxioms.eqb_spec.
  change (Prim2SF neg_infinity) with (S754_infinity true).
  unfold SFltb, SFeqb.
  destruct (Prim2SF x) as [s|s| |s m e]; simpl.
  - done.
  - by destruct s.
  - done.
  - rewrite Z.compare_refl, Pos.compare_cont_refl. by destruct s.
Qed.

(* ================================================================= *)
(** * The claims *)





(** C3: with early stopping enabled, the loop of a call ends at the first
    pass [i] at which the specification's test holds of the history so far
    (the seed and the sums of passes [0..i]): the test is false at every
    pass before the last one run, and the loop ends before the range does
    only when the test holds at its last pass.  At a pass where the guard
    holds the window is the three entries at positions [i-3 .. i-1]. *)
Theorem break_iff_stopping_test :
  forall C image nclasses beta tolerance max_iter w s0 st w',
    allow_break max_iter tolerance = true ->
    classify_loop C image nclasses beta tolerance max_iter w
    = (Ok (s0, st), w') ->
    let tol := default 1e-05%float tolerance in
    let h := energy_sum st in
    exists n,
      iterations (calls w') = iterations (calls w) ++ seq 0 n /\
      n <= Z.to_nat (default 100%Z max_iter) /\
      length h = n + 1 /\
      (forall i, S i < n ->
                 Spec.stopping_test tol (take (i + 2) h) i = false) /\
      (n < Z.to_nat (default 100%Z max_iter) ->
       exists i, n = S i /\ Spec.stopping_test tol h i = true) /\
      (forall i, i < n -> (i mod 10 = 0) -> i <> 0 ->
                 py_slice (take (i + 2) h) (Z.of_nat (i + 2) - 5) (Z.of_nat i)
                 = take 3 (drop (i - 3) h)).
Proof.
  intros C image nclasses beta tolerance max_iter w s0 st w' Hab H tol h.
  apply classify_loop_inv in H as (img & ig & K & st0 & w1 & Hp & Hl).
  prepare_facts Hp. unfold iterate in Hl. rewrite Hab in Hl.
  fold tol in Hl.
  set (N := Z.to_nat (default 100%Z max_iter)) in *.
  apply (for_loop_rule C
           (fun done brk st2 w2 =>
              iterations (calls w2) = iterations (calls w1) ++ done /\
              length (energy_sum st2) = length done + 1 /\
              (forall i, i < length done ->
                         Spec.stopping_test tol (take (i + 2) (energy_sum st2)) i
                         = true ->
                         S i = length done /\ brk = true) /\
              (brk = true ->
               exists i, length done = S i /\
                         Spec.stopping_test tol (energy_sum st2) i = true)))
    in Hl.
  - destruct Hl as (done & brk & rest & Hr & (Hi & Hlen & Hfirst & Hlast) & Hrest).
    assert (length done + length rest = N) as HN.
    { apply (f_equal length) in Hr. rewrite length_seq, length_app in Hr. lia. }
    assert (done = seq 0 (length done)) as Hdone.
    { apply (f_equal (take (length done))) in Hr.
      rewrite take_app_length, take_seq in Hr.
      rewrite <- Hr at 1. f_equal. lia. }
    exists (length done). fold h in Hlen, Hfirst, Hlast.
    split. { rewrite Hi, Hpcalls, iterations_app, <- Hdone. simpl.
             by rewrite app_nil_r. }
    split; [lia|]. split; [done|]. split; [|split].
    + intros i Hi'.
      destruct (Spec.stopping_test tol (take (i + 2) h) i) eqn:E; [|done].
      apply Hfirst in E as [? _]; lia.
    + intros Hlt. destruct brk; [by apply Hlast|].
      rewrite (Hrest eq_refl) in HN. simpl in HN. lia.
    + intros i Hi' Hm H0.
      assert (3 <= i) as Hi3.
      { destruct (decide (i < 3)) as [Hlt|]; [|lia].
        rewrite Nat.mod_small in Hm by lia. done. }
      assert (length (take (i + 2) h) = i + 2) as Hlen'.
      { rewrite length_take. lia. }
      pose proof (window_positions (take (i + 2) h) i Hlen' Hi3) as Hw.
      rewrite Hlen' in Hw. rewrite Hw.
      replace (i + 2) with ((i - 3) + 5) by lia.
      rewrite <- take_drop_commute, take_take. f_equal.
  - rewrite Hst0. simpl. split; [by rewrite app_nil_r|].
    split; [done|]. split; [intros; lia | discriminate].
  - intros done i rest st1 w2 st2 brk w3 Hr (Hi & Hlen & Hfirst & _) Hb.
    apply seq_middle in Hr as ->.
    pose proof (body_stopping_test _ _ _ _ _ _ _ _ _ _ _ Hb)
      as (Hbrk & Hlen2 & Htake).
    body_facts Hb.
    split. { rewrite Hcalls, iterations_app, Hi, <- app_assoc. done. }
    rewrite length_app. simpl.
    split; [lia|]. split.
    + intros i Hi' Ht.
      destruct (decide (i < length done)) as [Hlt|Hge].
      * rewrite Htake in Ht by lia. apply Hfirst in Ht as [_ [=]]. done.
      * assert (i = length done) as -> by lia.
        rewrite take_ge in Ht by lia. split; [lia|congruence].
    + intros ->. exists (length done). split; [lia|done].
Qed.

(** With the defaults and the same energy at every pass, the test first
    holds at pass 10 and the loop ends there, after 11 of its 100 passes. *)
Lemma break_iff_stopping_test_witness :
  exists s0 st w',
    classify_loop Sample.steady Sample.volume 1 0.1%float None None
      (Sample.world_of [0; 0.5]%float false) = (Ok (s0, st), w') /\
    exists n,
      iterations (calls w') = seq 0 n /\
      n <= 100 /\
      length (energy_sum st) = n + 1 /\
      (n < 100 ->
       exists i, n = S i /\
                 Spec.stopping_test 1e-05%float (energy_sum st) i = true).
Proof.
  eexists _, _, _. split; [vm_compute; reflexivity|].
  destruct (break_iff_stopping_test Sample.steady Sample.volume 1%Z
              0.1%float None None (Sample.world_of [0; 0.5]%float false)
              _ _ _ eq_refl ltac:(vm_compute; reflexivity))
    as (n & H1 & H2 & H3 & _ & H5 & _).
  exists n. split; [exact H1|]. split; [exact H2|]. split; [exact H3|].
  exact H5.
Defined.




(** C5: the means of the initial estimate and of every re-estimate in the
    loop are sorted before they are used, the companion array rearranged by
    the same permutation ([sigma] before it is squared, [sigmasq] in the
    loop), so every likelihood step is given means that ascend in the order
    of [argsort] (by [<=] when none is NaN).  The estimate of [seg_stats] is
    not sorted: it goes as it is to the posterior step of the first pass.
    The posterior step of each later pass is given the sorted parameters of
    the likelihood step before it. *)
Theorem class_parameters_sorted :
  forall C image nclasses beta tolerance max_iter w s0 st w',
    classify_loop C image nclasses beta tolerance max_iter w
    = (Ok (s0, st), w') ->
    exists new mu_e sg_e mu0 sg0 mu1 sg1 lik,
      calls w' = calls w ++ new /\
      initial_estimates new = [(mu_e, sg_e)] /\
      segmentation_estimates new = [(mu1, sg1)] /\
      likelihood_params new = (mu0, Xp.square sg0) :: lik /\
      sorted_with mu_e sg_e mu0 sg0 /\
      Forall2 sorted_estimate (updates new) lik /\
      posterior_params new = take (length lik) ((mu1, Xp.square sg1) :: lik) /\
      Forall (fun used =>
                ascending used.1 /\
                (Forall (fun x => is_nan x = false) used.1 ->
                 ascending_leb used.1))
        (likelihood_params new).
Proof.
  intros C image nclasses beta tolerance max_iter w s0 st w' H.
  apply classify_loop_inv in H as (img & ig & K & st0 & w1 & Hp & Hl).
  prepare_facts Hp. unfold iterate in Hl.
  apply for_loop_params in Hl as (new & Hc & Hi & Hg & Hs & Hpost).
  rewrite Hst0 in Hpost. simpl in Hpost.
  pose proof (argsort_sorted_with _ _ _ _ Hmu0 Hsg0) as Hsorted.
  exists (prepare_events img K mu_e sg_e mu0 sg0 nll s0 mu1 sg1 zn ++ new),
    mu_e, sg_e, mu0, sg0, mu1, sg1, (likelihood_params new).
  rewrite Hc, Hpcalls, <- app_assoc. split; [done|].
  split. { unfold initial_estimates in *. by rewrite omap_app, Hi. }
  split. { unfold segmentation_estimates in *. by rewrite omap_app, Hg. }
  rewrite likelihood_params_app, posterior_params_app, updates_app.
  do 4 (split; [done|]).
  apply Forall_app. split.
  - repeat constructor; simpl; eapply sorted_with_ascending; eauto.
  - clear Hpost. induction Hs as [|est used ests useds Hx _ IH];
      constructor; [|done].
    eapply sorted_with_ascending, Hx.
Qed.

(** One pass: the likelihood steps are given the sorted means, the
    posterior step the means [seg_stats] returned. *)
Lemma class_parameters_sorted_witness :
  exists s0 st w',
    classify_loop Sample.steady Sample.volume 1 0.1%float None
      (Some 1%Z) (Sample.world_of [0; 0.5]%float false) = (Ok (s0, st), w') /\
    (likelihood_params (calls w')).*1 = [[0.25; 0.75]; [0.2; 0.6]]%float /\
    Forall (fun used => ascending used.1) (likelihood_params (calls w')).
Proof.
  eexists _, _, _. split; [vm_compute; reflexivity|].
  split; [vm_compute; reflexivity|].
  destruct (class_parameters_sorted Sample.steady Sample.volume 1%Z
              0.1%float None (Some 1%Z) (Sample.world_of [0; 0.5]%float false)
              _ _ _ ltac:(vm_compute; reflexivity))
    as (new & mu_e & sg_e & mu0 & sg0 & mu1 & sg1 & lik & Hc & _ & _ & _ & _ &
        _ & _ & Hall).
  vm_compute in Hc. subst new.
  eapply Forall_impl; [exact Hall|]. by intros used [Hu _].
Defined.

(** C5 as stated fails at the posterior step of the first pass: it is given
    the means [seg_stats] returned, here [[0.9; 0.1]], which do not
    ascend. *)
Lemma first_posterior_means_not_sorted :
  exists s0 st w',
    classify_loop Sample.steady Sample.volume 1 0.1%float None
      (Some 1%Z) (Sample.world_of [0; 0.5]%float false) = (Ok (s0, st), w') /\
    (segmentation_estimates (calls w')).*1 = [[0.9; 0.1]]%float /\
    (posterior_params (calls w')).*1 = [[0.9; 0.1]]%float /\
    ~ ascending [0.9; 0.1]%float /\
    ~ ascending_leb [0.9; 0.1]%float.
Proof.
  eexists _, _, _. split; [vm_compute; reflexivity|].
  do 2 (split; [vm_compute; reflexivity|]).
  split; intros H; inversion H as [|? ? _ Hd]; subst;
    inversion Hd as [|? ? Hle]; subst; vm_compute in Hle; discriminate.
Qed.

(** C6: the convergence history starts as [[1e-05]]; with early stopping
    enabled every pass of the loop appends one number, the backend's sum of
    the entries of that pass's energy map that compare greater than minus
    infinity (so [+inf] entries are summed, [-inf] and NaN entries are
    not); with early stopping disabled nothing is appended. *)
Theorem history_of_energy_sums :
  forall C image nclasses beta tolerance max_iter w s0 st w',
    classify_loop C image nclasses beta tolerance max_iter w
    = (Ok (s0, st), w') ->
    exists new,
      calls w' = calls w ++ new /\
      length (sweeps new) = length (iterations new) /\
      energy_sum st =
        1e-05%float :: (if allow_break max_iter tolerance
                  then energy_total C <$> (sweeps new).*2 else []).
Proof.
  intros C image nclasses beta tolerance max_iter w s0 st w' H.
  apply classify_loop_inv in H as (img & ig & K & st0 & w1 & Hp & Hl).
  prepare_facts Hp. unfold iterate in Hl.
  apply for_loop_history in Hl as (new & Hc & Hn & He).
  exists (prepare_events img K mu_e sg_e mu0 sg0 nll s0 mu1 sg1 zn ++ new).
  rewrite Hc, Hpcalls, <- app_assoc. split; [done|].
  rewrite sweeps_app, iterations_app. split; [done|].
  rewrite He, Hst0. reflexivity.
Qed.

(** Three passes over energy maps [[1; 2]]: the history is the seed and
    three times 3. *)
Lemma history_of_energy_sums_witness :
  exists s0 st w',
    classify_loop Sample.steady Sample.volume 1 0.1%float (Some 0.5%float)
      (Some 3%Z) (Sample.world_of [0; 0.5]%float false) = (Ok (s0, st), w') /\
    energy_sum st = [1e-05; 3; 3; 3]%float.
Proof.
  eexists _, _, _. split; [vm_compute; reflexivity|].
  destruct (history_of_energy_sums Sample.steady Sample.volume 1%Z 0.1%float
              (Some 0.5%float) (Some 3%Z)
              (Sample.world_of [0; 0.5]%float false) _ _ _
              ltac:(vm_compute; reflexivity)) as (new & Hc & _ & He).
  vm_compute in Hc. subst new. exact He.
Defined.

(** C6 as stated fails on an energy map with a [+inf] entry: the entry is
    not finite, yet it is summed.  On the map [[+inf; 1]] the history gets
    [+inf], and the sum of the finite entries is 1. *)
Lemma history_sum_includes_infinity :
  exists s0 st w',
    classify_loop Sample.unbounded Sample.volume 1 0.1%float
      (Some 0.5%float) (Some 1%Z) (Sample.world_of [0; 0.5]%float false)
    = (Ok (s0, st), w') /\
    (sweeps (calls w')).*2 = [NdArray [1; 1; 2] [infinity; 1]%float] /\
    energy_sum st = [1e-05; infinity]%float /\
    Spec.finite_energy (xp_sum Sample.unbounded)
      (NdArray [1; 1; 2] [infinity; 1]%float) = 1%float /\
    energy_sum st <> [1e-05; 1]%float.
Proof.
  eexists _, _, _. split; [vm_compute; reflexivity|].
  do 3 (split; [vm_compute; reflexivity|]).
  intros H. apply (f_equal (fmap is_finite)) in H. vm_compute in H.
  discriminate.
Qed.






(** C9: the history lists are empty when the object is constructed and are
    appended to only when [save_history] is set: a call that returns leaves
    each list as it found it followed by one entry per pass of its own (the
    segmentation, posterior map, energy map and energy sum of the pass).
    No call clears them, so the entries of earlier calls on the same object
    stay in front. *)
Theorem history_lists_accumulate :
  (forall save_history verbose,
      let s := init save_history verbose in
      segmentations s = [] /\ pves s = [] /\ energies s = [] /\
      energies_sum s = []) /\
  (forall C image nclasses beta tolerance max_iter w r w',
      classify C image nclasses beta tolerance max_iter w = (Ok r, w') ->
      exists new,
        calls w' = calls w ++ new /\
        length (sweeps new) = length (iterations new) /\
        length (posteriors new) = length (iterations new) /\
        if save_history (self w) then
          save_history (self w') = true /\
          verbose (self w') = verbose (self w) /\
          segmentations (self w') = segmentations (self w) ++ (sweeps new).*1 /\
          pves (self w') = pves (self w) ++ posteriors new /\
          energies (self w') = energies (self w) ++ (sweeps new).*2 /\
          energies_sum (self w') =
            energies_sum (self w) ++ (energy_total C <$> (sweeps new).*2)
        else self w' = self w).
Proof.
  split; [done|].
  intros C image nclasses beta tolerance max_iter w [[s0 sf] pv] w' H.
  apply classify_inv in H as (st & pve & H & _).
  apply classify_loop_inv in H as (img & ig & K & st0 & w1 & Hp & Hl).
  prepare_facts Hp. unfold iterate in Hl.
  apply for_loop_self in Hl as (new & Hc & Hn1 & Hn2 & Hs).
  exists (prepare_events img K mu_e sg_e mu0 sg0 nll s0 mu1 sg1 zn ++ new).
  rewrite Hc, Hpcalls, <- app_assoc. split; [done|].
  rewrite sweeps_app, posteriors_app, iterations_app.
  do 2 (split; [done|]).
  rewrite Hs, Hpself. destruct (save_history (self w)) eqn:E; [|done].
  unfold extended. cbn. by rewrite E.
Qed.

(** Two calls on a classifier that records history: after the second, run
    from the world the first left, each list holds the first call's entry
    and then the second's. *)
Lemma history_lists_accumulate_witness :
  exists r w',
    classify Sample.steady Sample.volume 1 0.1%float None
      (Some 1%Z) (Sample.world_of [0; 0.5]%float true) = (Ok r, w') /\
    segmentations (self w') = [NdArray [1; 1; 2] [0; 0]%Z] /\
    energies_sum (self w') = [3%float].
Proof.
  eexists _, _. split; [vm_compute; reflexivity|].
  destruct (proj2 history_lists_accumulate Sample.steady
              Sample.volume 1%Z 0.1%float None (Some 1%Z)
              (Sample.world_of [0; 0.5]%float true) _ _
              ltac:(vm_compute; reflexivity))
    as (new & Hc & _ & _ & Hs).
  vm_compute in Hc. subst new.
  destruct Hs as (_ & _ & Hseg & _ & _ & Hsum). split; [exact Hseg | exact Hsum].
Defined.

(** C9 as stated fails: the lists are not cleared at a call.  After two
    calls of one pass each on the same object, the second call having run
    one pass, each list holds two entries. *)
Lemma second_call_keeps_first_history :
  exists r1 w1 r2 w2,
    classify Sample.steady Sample.volume 1 0.1%float None
      (Some 1%Z) (Sample.world_of [0; 0.5]%float true) = (Ok r1, w1) /\
    classify Sample.steady Sample.volume 1 0.1%float None
      (Some 1%Z) w1 = (Ok r2, w2) /\
    iterations (drop (length (calls w1)) (calls w2)) = [0] /\
    length (segmentations (self w2)) = 2 /\
    length (pves (self w2)) = 2 /\
    length (energies (self w2)) = 2 /\
    length (energies_sum (self w2)) = 2.
Proof.
  eexists _, _, _, _. split; [vm_compute; reflexivity|].
  split; [vm_compute; reflexivity|].
  repeat split; vm_compute; reflexivity.
Qed.



(** X1: the verbosity flag is observational.  A call from the world with
    the classifier silenced gives the result of the call from the world
    itself and leaves the same world, the output and the flag apart; and a
    call that returns has printed one progress line per pass when the flag
    is set and nothing when it is not. *)
Theorem verbosity_is_observational :
  (forall C image nclasses beta tolerance max_iter w,
      classify C image nclasses beta tolerance max_iter (silenced w) =
      ((classify C image nclasses beta tolerance max_iter w).1,
       silenced (classify C image nclasses beta tolerance max_iter w).2)) /\
  (forall C image nclasses beta tolerance max_iter w r w',
      classify C image nclasses beta tolerance max_iter w = (Ok r, w') ->
      exists new,
        calls w' = calls w ++ new /\
        stdout w' =
          stdout w ++
          (if verbose (self w) then progress_line <$> iterations new else [])).
Proof.
  split.
  - intros C image nclasses beta tolerance max_iter w.
    apply unobserving_classify.
  - intros C image nclasses beta tolerance max_iter w [[s0 sf] pv] w' H.
    apply classify_inv in H as (st & pve & H & _).
    apply classify_loop_inv in H as (img & ig & K & st0 & w1 & Hp & Hl).
    prepare_facts Hp. unfold iterate in Hl.
    apply for_loop_stdout in Hl as (new & Hc & _ & Ho).
    exists (prepare_events img K mu_e sg_e mu0 sg0 nll s0 mu1 sg1 zn ++ new).
    rewrite Hc, Hpcalls, <- app_assoc. split; [done|].
    rewrite Ho, Hpout, Hpself, iterations_app. done.
Qed.

(** Two passes of a verbose classifier print two lines. *)
Lemma verbosity_is_observational_witness :
  exists r w',
    classify Sample.steady Sample.volume 1 0.1%float None (Some 2%Z)
      (Sample.world_of [0; 0.5]%float false) = (Ok r, w') /\
    stdout w' = [">> Iteration: 0"; ">> Iteration: 1"].
Proof.
  eexists _, _. split; [vm_compute; reflexivity|].
  destruct (proj2 verbosity_is_observational Sample.steady Sample.volume 1%Z
              0.1%float None (Some 2%Z) (Sample.world_of [0; 0.5]%float false)
              _ _ ltac:(vm_compute; reflexivity)) as (new & Hc & Ho).
  vm_compute in Hc. subst new. vm_compute in Ho. exact Ho.
Defined.



(** X3: history recording is write-only.  A call on a classifier with
    recording off and empty lists gives the result (value or exception) of
    the call on the classifier as it is, whatever [save_history] is and
    whatever its lists hold, and leaves the same store, output and log. *)
Theorem history_recording_is_write_only :
  forall C image nclasses beta tolerance max_iter w,
    classify C image nclasses beta tolerance max_iter (without_history w) =
    ((classify C image nclasses beta tolerance max_iter w).1,
     without_history (classify C image nclasses beta tolerance max_iter w).2).
Proof.
  intros. apply unrecording_classify.
Qed.

(** X4: with [max_iter <= 10] the tolerance has no effect: two calls that
    differ in the tolerance they supply give the same result and leave the
    same world. *)
Theorem tolerance_unused_up_to_10_passes :
  forall C image nclasses beta (t1 t2 : float) (max_iter : Z) w,
    (max_iter <= 10)%Z ->
    classify C image nclasses beta (Some t1) (Some max_iter) w =
    classify C image nclasses beta (Some t2) (Some max_iter) w.
Proof.
  intros C image nclasses beta t1 t2 max_iter w Hm.
  unfold classify, classify_loop, bind.
  destruct (prepare C image nclasses w) as [[[[[[img ig] K] s0] st0]|e] w1];
    [|done].
  unfold iterate. simpl default.
  rewrite (for_loop_tolerance C ig K beta _ t1 t2); [done|].
  apply Forall_forall. intros i Hi. apply elem_of_seq in Hi. lia.
Qed.

(** Ten passes with tolerance 0.5 and with tolerance 0: the same triple. *)
Lemma tolerance_unused_up_to_10_passes_witness :
  (classify Sample.steady Sample.volume 1 0.1%float (Some 0.5%float)
     (Some 10%Z) (Sample.world_of [0; 0.5]%float true)).1 =
  (classify Sample.steady Sample.volume 1 0.1%float (Some 0%float)
     (Some 10%Z) (Sample.world_of [0; 0.5]%float true)).1.
Proof.
  rewrite (tolerance_unused_up_to_10_passes Sample.steady Sample.volume 1%Z
             0.1%float 0.5%float 0%float 10%Z
             (Sample.world_of [0; 0.5]%float true)); [reflexivity | lia].
Defined.

(** X5: on an empty volume a call raises [ValueError] at its first
    statement that reads the volume, [image.max()]: no collaborator is
    called and the world is as it was. *)
Theorem empty_volume_raises :
  forall C image nclasses beta tolerance max_iter w a,
    heap w !! image = Some a -> data a = [] ->
    classify C image nclasses beta tolerance max_iter w = (Err ValueError, w).
Proof.
  intros C image nclasses beta tolerance max_iter w a Ha Hd.
  unfold classify, classify_loop, prepare, normalize.
  unfold bind, read, lift. by rewrite Ha, Hd.
Qed.

(** The store holds a volume of shape (0, 0, 0). *)
Lemma empty_volume_raises_witness :
  classify Sample.steady Sample.volume 1 0.1%float None None
    (World {[ Sample.volume := NdArray [0; 0; 0] [] ]} (init false true) [] [])
  = (Err ValueError,
     World {[ Sample.volume := NdArray [0; 0; 0] [] ]} (init false true) [] []).
Proof.
  apply (empty_volume_raises Sample.steady Sample.volume 1%Z 0.1%float None
           None _ (NdArray [0; 0; 0] [])); reflexivity.
Defined.

(** X6: a volume with a NaN voxel is never rescaled: its maximum is NaN,
    which does not exceed 1, so the working volume is the volume itself,
    whatever its other voxels are, and no array is added to the store. *)
Theorem nan_volume_not_rescaled :
  forall C image nclasses w img ig K s0 st0 w1 a,
    heap w !! image = Some a ->
    Exists (fun x => is_nan x = true) (data a) ->
    prepare C image nclasses w = (Ok (img, ig, K, s0, st0), w1) ->
    img = a /\ heap w1 = heap w.
Proof.
  intros C image nclasses w img ig K s0 st0 w1 a Ha Hnan H.
  prepare_facts H.
  apply normalize_inv in Hnorm as (a' & hi & Ha' & Hhi & _ & _ & _ & Hcase).
  rewrite Ha in Ha'. injection Ha' as <-.
  destruct (amax_nan _ Hnan) as (hi' & Hhi' & Hn).
  rewrite Hhi in Hhi'. injection Hhi' as <-.
  rewrite (ltb_nan_r 1 hi Hn) in Hcase.
  destruct Hcase as [-> Hheap]. simpl in Hheap.
  rewrite Hheap in Himg. split; [congruence | done].
Qed.

(** The volume [[nan; 250]]: used as it is although 250 exceeds 1. *)
Lemma nan_volume_not_rescaled_witness :
  exists img ig K s0 st0 w1,
    prepare Sample.steady Sample.volume 1
      (Sample.world_of [nan; 250]%float false)
    = (Ok (img, ig, K, s0, st0), w1) /\
    img = NdArray [1; 1; 2] [nan; 250]%float.
Proof.
  eexists _, _, _, _, _, _. split; [vm_compute; reflexivity|].
  eapply (nan_volume_not_rescaled Sample.steady Sample.volume 1%Z
            (Sample.world_of [nan; 250]%float false)).
  - reflexivity.
  - left. reflexivity.
  - vm_compute. reflexivity.
Defined.

(** X7: what a call that returns handed from step to step.  The first pass
    starts from the maximum-likelihood segmentation the call returns first,
    every later pass from the segmentation the sweep before it returned;
    the ICM sweep of a pass starts from the same segmentation as its
    neighbourhood step, with the likelihood computed in that pass, the
    likelihood computed before the loop going to
    [initialize_maximum_likelihood]; the posterior step is handed the prior
    of its pass, and the re-estimation that pass's posterior map with the
    means the posterior was computed from. *)
Theorem passes_hand_on_segmentation :
  forall C image nclasses beta tolerance max_iter w s0 sf pv w',
    classify C image nclasses beta tolerance max_iter w
    = (Ok (s0, sf, pv), w') ->
    exists new,
      calls w' = calls w ++ new /\
      ml_segmentations new = [s0] /\
      neighbourhood_inputs new =
        take (length (sweeps new)) (s0 :: (sweeps new).*1) /\
      (sweep_inputs new).*2 = neighbourhood_inputs new /\
      likelihoods new = ml_inputs new ++ (sweep_inputs new).*1 /\
      posterior_priors new = priors new /\
      (update_inputs new).*1 = posteriors new /\
      (update_inputs new).*2 = (posterior_params new).*1.
Proof.
  intros C image nclasses beta tolerance max_iter w s0 sf pv w' H.
  apply classify_inv in H as (st & pve & H & _ & _ & _).
  apply classify_loop_inv in H as (img & ig & K & st0 & w1 & Hp & Hl).
  prepare_facts Hp. unfold iterate in Hl.
  apply for_loop_handoff in Hl
    as (new & Hc & Hn & Hs & Hl & Hpr & Hu1 & Hu2 & Hm1 & Hm2).
  rewrite Hst0 in Hn. cbn [seg_init] in Hn.
  exists (prepare_events img K mu_e sg_e mu0 sg0 nll s0 mu1 sg1 zn ++ new).
  rewrite Hc, Hpcalls, <- app_assoc. split; [done|].
  rewrite neighbourhood_inputs_app, sweep_inputs_app, posterior_priors_app,
    update_inputs_app, priors_app, likelihoods_app, posteriors_app,
    posterior_params_app, sweeps_app, ml_inputs_app, ml_outputs_app.
  change (neighbourhood_inputs (prepare_events _ _ _ _ _ _ _ _ _ _ _))
    with (@nil (ndarray Z)).
  change (sweep_inputs (prepare_events _ _ _ _ _ _ _ _ _ _ _))
    with (@nil (ndarray float * ndarray Z)).
  change (posterior_priors (prepare_events _ _ _ _ _ _ _ _ _ _ _))
    with (@nil (ndarray float)).
  change (update_inputs (prepare_events _ _ _ _ _ _ _ _ _ _ _))
    with (@nil (ndarray float * vec)).
  change (priors (prepare_events _ _ _ _ _ _ _ _ _ _ _))
    with (@nil (ndarray float)).
  change (likelihoods (prepare_events _ _ _ _ _ _ _ _ _ _ _)) with [nll].
  change (posteriors (prepare_events _ _ _ _ _ _ _ _ _ _ _))
    with (@nil (ndarray float)).
  change (posterior_params (prepare_events _ _ _ _ _ _ _ _ _ _ _))
    with (@nil (vec * vec)).
  change (sweeps (prepare_events _ _ _ _ _ _ _ _ _ _ _))
    with (@nil (ndarray Z * ndarray float)).
  change (ml_inputs (prepare_events _ _ _ _ _ _ _ _ _ _ _)) with [nll].
  change (ml_segmentations (prepare_events _ _ _ _ _ _ _ _ _ _ _)) with [s0].
  cbn [app]. rewrite Hs, Hl, Hpr, Hu1, Hu2, Hm1, Hm2. done.
Qed.

(** Two passes over a two-voxel volume: the second neighbourhood step
    starts from the segmentation the first sweep returned. *)
Lemma passes_hand_on_segmentation_witness :
  exists s0 sf pv w',
    classify Sample.steady Sample.volume 1 0.1%float None
      (Some 2%Z) (Sample.world_of [0; 0.5]%float false)
    = (Ok (s0, sf, pv), w') /\
    exists new,
      calls w' = calls (Sample.world_of [0; 0.5]%float false) ++ new /\
      length (sweeps new) = 2 /\
      neighbourhood_inputs new =
        take (length (sweeps new)) (s0 :: (sweeps new).*1).
Proof.
  eexists _, _, _, _. split; [vm_compute; reflexivity|].
  destruct (passes_hand_on_segmentation Sample.steady Sample.volume 1%Z
              0.1%float None (Some 2%Z) (Sample.world_of [0; 0.5]%float false)
              _ _ _ _ ltac:(vm_compute; reflexivity))
    as (new & Hc & _ & Hn & _).
  exists new. split; [exact Hc|]. split; [|exact Hn].
  apply (f_equal (drop 0)) in Hc. vm_compute in Hc. subst new.
  vm_compute. reflexivity.
Defined.

(** X8: a NaN disables early stopping.  A call that returns with a NaN
    tolerance, or with a NaN among the energy sums it collected, has run
    every pass of its range: the stopping test compares against a NaN
    threshold and never holds. *)
Theorem nan_disables_early_stopping :
  forall C image nclasses beta tolerance max_iter w s0 st w',
    classify_loop C image nclasses beta tolerance max_iter w
    = (Ok (s0, st), w') ->
    is_nan (default 1e-05%float tolerance) = true \/
    Exists (fun x => is_nan x = true) (energy_sum st) ->
    iterations (calls w') =
    iterations (calls w) ++ seq 0 (Z.to_nat (default 100%Z max_iter)).
Proof.
  intros C image nclasses beta tolerance max_iter w s0 st w' H Hnan.
  apply classify_loop_inv in H as (img & ig & K & st0 & w1 & Hp & Hl).
  prepare_facts Hp. unfold iterate in Hl.
  apply for_loop_nan in Hl; [|done].
  rewrite Hl, Hpcalls, iterations_app. simpl. by rewrite app_nil_r.
Qed.

(** With [tolerance=nan] the twelve passes asked for are run; with
    [tolerance=0.5] the same call stops after eleven. *)
Lemma nan_disables_early_stopping_witness :
  exists s0 st w' r w'',
    classify_loop Sample.steady Sample.volume 1 0.1%float
      (Some nan) (Some 12%Z) (Sample.world_of [0; 0.5]%float false)
    = (Ok (s0, st), w') /\
    iterations (calls w') = seq 0 12 /\
    classify_loop Sample.steady Sample.volume 1 0.1%float
      (Some 0.5%float) (Some 12%Z) (Sample.world_of [0; 0.5]%float false)
    = (r, w'') /\
    iterations (calls w'') = seq 0 11.
Proof.
  eexists _, _, _, _, _. split; [vm_compute; reflexivity|]. split.
  - apply (nan_disables_early_stopping Sample.steady
             Sample.volume 1%Z 0.1%float (Some nan) (Some 12%Z)
             (Sample.world_of [0; 0.5]%float false) _ _ _
             ltac:(vm_compute; reflexivity)).
    left. vm_compute. reflexivity.
  - split; vm_compute; reflexivity.
Defined.

(** X9: the history lists stay in step whatever the outcome.  After a call,
    whether it returned or raised, in whatever pass, the two flags are as
    they were and each of the four lists is the list before the call
    followed by new entries, as many in each list; with recording off there
    are none, and the object is as it was. *)
Theorem history_lists_stay_in_step :
  forall C image nclasses beta tolerance max_iter w,
    let s := self w in
    let s' := self (classify C image nclasses beta tolerance max_iter w).2 in
    in_step s s' /\
    (length (pves s) = length (segmentations s) ->
     length (energies s) = length (segmentations s) ->
     length (energies_sum s) = length (segmentations s) ->
     length (pves s') = length (segmentations s') /\
     length (energies s') = length (segmentations s') /\
     length (energies_sum s') = length (segmentations s')) /\
    (save_history s = false -> s' = s).
Proof.
  intros C image nclasses beta tolerance max_iter w s s'.
  pose proof (keeps_in_step_classify C image nclasses beta tolerance max_iter w)
    as H.
  fold s s' in H. split; [exact H|].
  destruct H as (Hh & Hv & a & b & c & d & Ha & Hb & Hc & Hd & L1 & L2 & L3 &
                 Hoff).
  split.
  - intros E1 E2 E3. rewrite Ha, Hb, Hc, Hd, !length_app. lia.
  - intros Hs. specialize (Hoff Hs). subst a.
    destruct b; [|done]. destruct c; [|done]. destruct d; [|done].
    rewrite app_nil_r in Ha, Hb, Hc, Hd.
    destruct s, s'; simpl in *. congruence.
Qed.

(** A recording call that raises in its second pass: each list holds the
    entry of the first pass. *)
Lemma history_lists_stay_in_step_witness :
  exists e w',
    classify interrupted Sample.volume 1 0.1%float None (Some 3%Z)
      (Sample.world_of [0; 0.5]%float true) = (Err e, w') /\
    iterations (calls w') = [0; 1] /\
    length (segmentations (self w')) = 1 /\
    length (pves (self w')) = length (segmentations (self w')) /\
    length (energies (self w')) = length (segmentations (self w')) /\
    length (energies_sum (self w')) = length (segmentations (self w')).
Proof.
  eexists _, _. split; [vm_compute; reflexivity|].
  do 2 (split; [vm_compute; reflexivity|]).
  apply (history_lists_stay_in_step interrupted Sample.volume 1%Z 0.1%float
           None (Some 3%Z) (Sample.world_of [0; 0.5]%float true));
    reflexivity.
Defined.

(** X10: a tolerance of zero disables early stopping.  The threshold of the
    test is then zero (or NaN, when the spread of the history is infinite),
    the test asks for a distance strictly below it, and a call that returns
    has run every pass of its range, however flat its energy history. *)
Theorem zero_tolerance_never_stops :
  forall C image nclasses beta (tolerance : float) max_iter w s0 st w',
    (tolerance =? 0)%float = true ->
    classify_loop C image nclasses beta (Some tolerance) max_iter w
    = (Ok (s0, st), w') ->
    iterations (calls w') =
    iterations (calls w) ++ seq 0 (Z.to_nat (default 100%Z max_iter)).
Proof.
  intros C image nclasses beta tolerance max_iter w s0 st w' Ht H.
  apply classify_loop_inv in H as (img & ig & K & st0 & w1 & Hp & Hl).
  prepare_facts Hp. unfold iterate in Hl.
  apply for_loop_test_fails in Hl.
  - rewrite Hl, Hpcalls, iterations_app. simpl. by rewrite app_nil_r.
  - intros es i b Hb. by apply (converged_zero _ _ _ _ Hb).
Qed.

(** The energy history of [Sample.steady] is flat from the first pass on:
    with [tolerance=0] the twelve passes asked for are run, and the last
    three sums the test at pass 10 looks at are equal. *)
Lemma zero_tolerance_never_stops_witness :
  exists s0 st w',
    classify_loop Sample.steady Sample.volume 1 0.1%float
      (Some 0%float) (Some 12%Z) (Sample.world_of [0; 0.5]%float false)
    = (Ok (s0, st), w') /\
    iterations (calls w') = seq 0 12 /\
    take 3 (drop 7 (energy_sum st)) = [3; 3; 3]%float.
Proof.
  eexists _, _, _. split; [vm_compute; reflexivity|]. split.
  - apply (zero_tolerance_never_stops Sample.steady
             Sample.volume 1%Z 0.1%float 0%float (Some 12%Z)
             (Sample.world_of [0; 0.5]%float false) _ _ _
             ltac:(vm_compute; reflexivity) ltac:(vm_compute; reflexivity)).
  - vm_compute. reflexivity.
Defined.

(** X11: the energy sum of a pass, the one appended to the convergence
    history and the one recorded in [energies_sum], is the backend's sum of
    the entries of the energy map that are neither NaN nor minus infinity:
    those two are left out without a trace, every other entry, plus
    infinity among them, is summed. *)
Theorem energy_sum_skips_nan_and_neg_inf :
  forall C e,
    energy_total C e =
    xp_sum C (filter (fun x => negb (is_nan x)
                               && negb (x =? neg_infinity)%float = true)
                (data e)).
Proof.
  intros C e. unfold energy_total, Xp.above_neg_inf. f_equal.
  apply list_filter_iff. intros x. apply above_neg_inf_iff.
Qed.
